(** * Conditional branching engine of the form builder

    A shallow embedding of [src/lib/branching.ts] together with the
    declarations of [src/lib/database.types.ts] it reads, of the handlers
    of the branch editor that call it, and of the location parser of
    [src/components/ui/location-input.tsx], followed by the properties of
    the condition evaluator, the next-question resolver, the path
    projector, the queries, the editor and the parser.

    The module is embedded twice. The first layer reads the answers
    object through its own keys and converts every answer with a total
    [ToString]: it is the module on plain data. The second layer,
    [Runtime], follows the source again with the lookups that reach
    [Object.prototype] and the exceptions that [String] and [Array.from]
    raise; the two agree on plain data ([getQuestionPath_on_plain_data]).

    Conventions of the embedding:
    - a [Record<string, Json>] is a finite map [gmap string Json] of its
      own keys; on the first layer a key that is not in the map reads as
      [undefined];
    - a JavaScript [number] is an integer [Z], printed in decimal;
    - a string is a [string] of 8-bit characters, its length their number;
    - an optional field [f?: T] is an [option T], [None] being [undefined];
      [string | null] is an [option string], [None] being [null];
    - reading a property of [undefined] raises: the functions that index an
      array return an [Outcome], whose [TypeError] is that exception. *)

From Stdlib Require Import Ascii String.
From stdpp Require Import gmap strings list pretty.

#[local] Set Warnings "-register-all".
#[local] Open Scope string_scope.
#[local] Open Scope list_scope.
#[local] Open Scope nat_scope.

(** ** Values *)

(** [Json] of database.types.ts. *)
Inductive Json : Type :=
| JString (s : string)
| JNumber (n : Z)
| JBoolean (b : bool)
| JNull
| JObject (fields : list (string * Json))
| JArray (items : list Json).

(** [Array.prototype.join], on strings that are already converted. *)
Definition join (sep : string) (parts : list string) : string :=
  String.concat sep parts.

(** [String(v)] on plain data (see [plain]). An array is joined with
    commas, its [null] elements printing as the empty string; an object
    prints through [Object.prototype.toString]. [Runtime.ToString] is the
    conversion with its exception. *)
Fixpoint ToString (v : Json) : string :=
  match v with
  | JString s => s
  | JNumber n => pretty n
  | JBoolean true => "true"
  | JBoolean false => "false"
  | JNull => "null"
  | JObject _ => "[object Object]"
  | JArray items =>
      join "," (map (fun e => match e with
                              | JNull => ""
                              | _ => ToString e
                              end) items)
  end.

(** [Array.isArray]. *)
Definition isArray (v : Json) : bool :=
  match v with JArray _ => true | _ => false end.

(** Truthiness of a string and of a number, as [||] and [&&] test them. *)
Definition truthy_string (s : string) : bool := negb (String.eqb s "").
Definition truthy_number (n : Z) : bool := negb (Z.eqb n 0).

(** [String.prototype.toLowerCase], on the ASCII letters. *)
Definition lower_ascii (c : ascii) : ascii :=
  let n := nat_of_ascii c in
  if (65 <=? n)%nat && (n <=? 90)%nat then ascii_of_nat (n + 32) else c.

Fixpoint toLowerCase (s : string) : string :=
  match s with
  | EmptyString => EmptyString
  | String c s' => String (lower_ascii c) (toLowerCase s')
  end.

(** [String.prototype.includes]: [sub] occurs somewhere in [s]. *)
Fixpoint string_includes (s sub : string) : bool :=
  String.prefix sub s ||
  match s with
  | EmptyString => false
  | String _ s' => string_includes s' sub
  end.

(** ** Declarations of database.types.ts *)

Inductive QuestionType : Type :=
| short_text | long_text | dropdown | checkboxes | email | phone | number
| date | rating | opinion_scale | yes_no | file_upload | url | location.

Inductive BranchOperator : Type :=
| equals | not_equals | contains | in_.

(** [value: string | string[]] of a branch condition. *)
Inductive ConditionValue : Type :=
| One (s : string)
| Many (l : list string).

Module Condition.
Record t : Type := mk {
  questionId : string;
  operator : BranchOperator;
  value : ConditionValue
}.
End Condition.

Module BranchRule.
Record t : Type := mk {
  id : string;
  condition : Condition.t;
  nextQuestionId : option string
}.
End BranchRule.

(** The three states of [defaultNextId?: string | null]. *)
Inductive DefaultNext : Type :=
| Undefined
| Configured (target : option string).

Module QuestionConfig.
Record t : Type := mk {
  id : string;
  type : QuestionType;
  title : string;
  description : option string;
  required : bool;
  options : option (list string);
  minValue : option Z;
  maxValue : option Z;
  allowedFileTypes : option (list string);
  maxFileSize : option Z;
  placeholder : option string;
  branches : option (list BranchRule.t);
  defaultNextId : DefaultNext
}.
End QuestionConfig.

Abbreviation Answers := (gmap string Json).

(** ** Condition evaluator *)

(** [String(conditionValue)]. *)
Definition ToString_value (v : ConditionValue) : string :=
  match v with
  | One s => s
  | Many l => join "," l
  end.

(** [x === s] for a [Json] value [x] and a string [s]: no conversion. *)
Definition strict_equals_string (x : Json) (s : string) : bool :=
  match x with
  | JString t => String.eqb t s
  | _ => false
  end.

(** [answer.includes(conditionValue)]. Elements are compared with [===]
    semantics, so only a string element can equal a string value; a value
    that is itself an array is a distinct object from every element. *)
Definition answer_includes (items : list Json) (v : ConditionValue) : bool :=
  match v with
  | One s => existsb (fun x => strict_equals_string x s) items
  | Many _ => false
  end.

(** [conditionValue.includes(s)] on an array of strings. *)
Definition value_includes (l : list string) (s : string) : bool :=
  existsb (String.eqb s) l.

Definition evaluateCondition (condition : Condition.t) (answers : Answers)
  : bool :=
  match answers !! Condition.questionId condition with
  | None | Some JNull => false
  | Some answer =>
      let answerStr := ToString answer in
      let conditionValue := Condition.value condition in
      match Condition.operator condition with
      | equals =>
          match answer with
          | JArray items => answer_includes items conditionValue
          | _ => String.eqb answerStr (ToString_value conditionValue)
          end
      | not_equals =>
          match answer with
          | JArray items => negb (answer_includes items conditionValue)
          | _ => negb (String.eqb answerStr (ToString_value conditionValue))
          end
      | contains =>
          match answer with
          | JArray items =>
              existsb (fun a =>
                         string_includes
                           (toLowerCase (ToString a))
                           (toLowerCase (ToString_value conditionValue)))
                      items
          | _ =>
              string_includes (toLowerCase answerStr)
                              (toLowerCase (ToString_value conditionValue))
          end
      | in_ =>
          match conditionValue with
          | One _ => false
          | Many l =>
              match answer with
              | JArray items =>
                  existsb (fun a => value_includes l (ToString a)) items
              | _ => value_includes l answerStr
              end
          end
      end
  end.

(** ** Exceptions *)

(** The result of a call: a value, or the [TypeError] that JavaScript
    raises when a property of [undefined] is read. *)
Inductive Outcome (A : Type) : Type :=
| Ok (a : A)
| TypeError.
Arguments Ok {A} a.
Arguments TypeError {A}.

#[global] Instance Outcome_ret : MRet Outcome := fun A a => Ok a.

#[global] Instance Outcome_bind : MBind Outcome := fun A B k m =>
  match m with
  | Ok a => k a
  | TypeError => TypeError
  end.

(** [arr[i].id]: raises when [arr[i]] is [undefined]. *)
Definition id_at (arr : list QuestionConfig.t) (i : Z) : Outcome string :=
  match (if (i <? 0)%Z then None else arr !! Z.to_nat i) with
  | Some q => Ok (QuestionConfig.id q)
  | None => TypeError
  end.

(** ** Next-question resolver *)

(** [Array.prototype.findIndex]: the first position that satisfies [p],
    or [-1]. *)
Fixpoint findIndex_from {A : Type} (p : A → bool) (l : list A) (i : Z) : Z :=
  match l with
  | [] => (-1)%Z
  | x :: rest => if p x then i else findIndex_from p rest (i + 1)%Z
  end.

Definition findIndex {A : Type} (p : A → bool) (l : list A) : Z :=
  findIndex_from p l 0%Z.

(** The [for ... of] loop over the branch rules: [Some target] when the
    loop returns, [None] when it runs to its end. *)
Fixpoint branchLoop (branches : list BranchRule.t) (answers : Answers)
  : option (option string) :=
  match branches with
  | [] => None
  | branch :: rest =>
      if evaluateCondition (BranchRule.condition branch) answers
      then Some (BranchRule.nextQuestionId branch)
      else branchLoop rest answers
  end.

Definition same_id (currentId : string) (q : QuestionConfig.t) : bool :=
  String.eqb (QuestionConfig.id q) currentId.

Definition getNextQuestionId (currentQuestion : QuestionConfig.t)
    (allQuestions : list QuestionConfig.t) (answers : Answers)
  : Outcome (option string) :=
  let fromBranches :=
    match QuestionConfig.branches currentQuestion with
    | Some branches =>
        if (0 <? Z.of_nat (length branches))%Z
        then branchLoop branches answers
        else None
    | None => None
    end in
  match fromBranches with
  | Some target => Ok target
  | None =>
      match QuestionConfig.defaultNextId currentQuestion with
      | Configured target => Ok target
      | Undefined =>
          let currentIndex :=
            findIndex (same_id (QuestionConfig.id currentQuestion))
                      allQuestions in
          if (0 <=? currentIndex)%Z &&
             (currentIndex <? Z.of_nat (length allQuestions) - 1)%Z
          then next ← id_at allQuestions (currentIndex + 1)%Z;
               Ok (Some next)
          else Ok None
      end
  end.

(** ** Path projector *)

(** The [while] loop. [remaining] is [maxIterations - iterations], so the
    test [iterations < maxIterations] is [remaining] being a successor;
    [currentId] is falsy when it is [null] or the empty string. *)
Fixpoint pathLoop (remaining : nat) (questions : list QuestionConfig.t)
    (answers : Answers) (visited : gset string)
    (currentId : option string) (path : list QuestionConfig.t)
  : Outcome (list QuestionConfig.t) :=
  match remaining with
  | O => Ok path
  | S remaining' =>
      match currentId with
      | None => Ok path
      | Some cur =>
          if negb (truthy_string cur) then Ok path
          else if decide (cur ∈ visited) then Ok path
          else
            match find (same_id cur) questions with
            | None => Ok path
            | Some question =>
                next ← getNextQuestionId question questions answers;
                pathLoop remaining' questions answers
                         ({[ cur ]} ∪ visited) next (path ++ [question])
            end
      end
  end.

Definition getQuestionPath (questions : list QuestionConfig.t)
    (answers : Answers) (startFromId : option string)
  : Outcome (list QuestionConfig.t) :=
  if (length questions =? 0)%nat then Ok []
  else
    start ←
      match startFromId with
      | Some s => if truthy_string s then Ok s else id_at questions 0%Z
      | None => id_at questions 0%Z
      end;
    let maxIterations := (length questions * 2)%nat in
    pathLoop maxIterations questions answers ∅ (Some start) [].

(** ** Eligibility and value queries *)

Definition hasBranching (question : QuestionConfig.t) : bool :=
  match QuestionConfig.branches question with
  | Some branches => (0 <? Z.of_nat (length branches))%Z
  | None => false
  end ||
  match QuestionConfig.defaultNextId question with
  | Undefined => false
  | Configured _ => true
  end.

Definition getBranchableQuestions (currentQuestion : QuestionConfig.t)
    (allQuestions : list QuestionConfig.t) : list QuestionConfig.t :=
  let currentIndex :=
    findIndex (same_id (QuestionConfig.id currentQuestion)) allQuestions in
  if (currentIndex <? 0)%Z then []
  else drop (Z.to_nat (currentIndex + 1)) allQuestions.

Definition branchableTypes : list QuestionType :=
  [dropdown; checkboxes; yes_no; rating; opinion_scale].

Definition QuestionType_eqb (a b : QuestionType) : bool :=
  match a, b with
  | short_text, short_text | long_text, long_text | dropdown, dropdown
  | checkboxes, checkboxes | email, email | phone, phone | number, number
  | date, date | rating, rating | opinion_scale, opinion_scale
  | yes_no, yes_no | file_upload, file_upload | url, url
  | location, location => true
  | _, _ => false
  end.

Definition getConditionableQuestions (currentQuestion : QuestionConfig.t)
    (allQuestions : list QuestionConfig.t) : list QuestionConfig.t :=
  let currentIndex :=
    findIndex (same_id (QuestionConfig.id currentQuestion)) allQuestions in
  if (currentIndex <=? 0)%Z then []
  else
    List.filter
      (fun q => existsb (QuestionType_eqb (QuestionConfig.type q))
                        branchableTypes)
      (take (Z.to_nat currentIndex) allQuestions).

(** [x || d] on an optional number: [undefined] and [0] give [d]. *)
Definition number_or (x : option Z) (d : Z) : Z :=
  match x with
  | Some n => if truthy_number n then n else d
  | None => d
  end.

(** [Array.from({ length: len }, (_, i) => String(lo + i))]; a length
    that is not positive gives the empty array. ([Runtime.range_strings]
    has the length that [Array.from] refuses.) *)
Definition range_strings (lo len : Z) : list string :=
  map (fun i => ToString (JNumber (lo + Z.of_nat i))) (seq 0 (Z.to_nat len)).

Definition getQuestionValues (question : QuestionConfig.t) : list string :=
  match QuestionConfig.type question with
  | dropdown | checkboxes =>
      match QuestionConfig.options question with
      | Some opts => opts
      | None => []
      end
  | yes_no => ["Yes"; "No"]
  | rating =>
      let minRating := number_or (QuestionConfig.minValue question) 1 in
      let maxRating := number_or (QuestionConfig.maxValue question) 5 in
      range_strings minRating (maxRating - minRating + 1)
  | opinion_scale =>
      let minScale := number_or (QuestionConfig.minValue question) 1 in
      let maxScale := number_or (QuestionConfig.maxValue question) 10 in
      range_strings minScale (maxScale - minScale + 1)
  | _ => []
  end.

(** ** Rule construction *)

(** [crypto.randomUUID()] reads and advances the platform's generator:
    [W] is the state of that generator. *)
Class Crypto (W : Type) : Type := {
  randomUUID : W → string * W
}.

(** The parameters [operator], [value] and [nextQuestionId] are optional:
    an omitted argument ([None]) takes its declared default. *)
Definition createBranchRule {W : Type} `{Crypto W}
    (questionId : string) (operator : option BranchOperator)
    (value : option string) (nextQuestionId : option (option string))
    (w : W) : BranchRule.t * W :=
  let '(uuid, w') := randomUUID w in
  (BranchRule.mk uuid
     (Condition.mk questionId (default equals operator)
                   (One (default "" value)))
     (default None nextQuestionId),
   w').

(** * The functions as JavaScript runs them

    The definitions above describe the module on plain data: an answers
    object read through its own keys only, and answers that [String]
    converts. [Runtime] follows the source once more without these two
    restrictions: a key that the answers object lacks is looked up on
    [Object.prototype], and [String] raises on an object that has an own
    property named [toString] (its value is data, hence not callable, and
    [valueOf] then yields no primitive either). An array longer than
    [2^32 - 1] cannot be built. Numbers stay integers: the model is exact
    for the integers of magnitude below [2^53]. *)

Module Runtime.

Inductive Error : Type :=
| TypeError
| RangeError.

Inductive Completion (A : Type) : Type :=
| Normal (a : A)
| Throw (e : Error).
Arguments Normal {A} a.
Arguments Throw {A} e.

#[global] Instance Completion_ret : MRet Completion := fun A a => Normal a.

#[global] Instance Completion_bind : MBind Completion := fun A B k m =>
  match m with
  | Normal a => k a
  | Throw e => Throw e
  end.

(** What [answers[key]] can yield: own data, a built-in method inherited
    from [Object.prototype], or (under the key [__proto__]) that
    prototype itself. *)
Inductive Property : Type :=
| Data (v : Json)
| NativeFunction (name : string)
| ObjectPrototype.

(** The properties of [Object.prototype]. *)
Definition inherited (key : string) : option Property :=
  if String.eqb key "constructor" then Some (NativeFunction "Object")
  else if String.eqb key "__proto__" then Some ObjectPrototype
  else if existsb (String.eqb key)
            ["hasOwnProperty"; "isPrototypeOf"; "propertyIsEnumerable";
             "toLocaleString"; "toString"; "valueOf";
             "__defineGetter__"; "__defineSetter__";
             "__lookupGetter__"; "__lookupSetter__"]
       then Some (NativeFunction key)
  else None.

(** [answers[key]]: [None] is [undefined]. *)
Definition Get (answers : Answers) (key : string) : option Property :=
  match answers !! key with
  | Some v => Some (Data v)
  | None => inherited key
  end.

Definition has_own (key : string) (fields : list (string * Json)) : bool :=
  existsb (fun field => String.eqb field.1 key) fields.

(** [String(v)] on data. The elements of an array are converted from
    left to right, [null] printing as the empty string. *)
Fixpoint ToString (v : Json) : Completion string :=
  match v with
  | JString s => Normal s
  | JNumber n => Normal (pretty n)
  | JBoolean true => Normal "true"
  | JBoolean false => Normal "false"
  | JNull => Normal "null"
  | JObject fields =>
      if has_own "toString" fields then Throw TypeError
      else Normal "[object Object]"
  | JArray items =>
      match
        (fix convert (es : list Json) : Completion (list string) :=
           match es with
           | [] => Normal []
           | e :: rest =>
               match (match e with
                      | JNull => Normal ""
                      | _ => ToString e
                      end) with
               | Normal s =>
                   match convert rest with
                   | Normal ss => Normal (s :: ss)
                   | Throw err => Throw err
                   end
               | Throw err => Throw err
               end
           end) items
      with
      | Normal parts => Normal (join "," parts)
      | Throw err => Throw err
      end
  end.

(** [String(answer)] on whatever [answers[key]] yielded. A built-in
    method prints as its source text, here in the form V8 gives it; the
    properties below use of it only that the conversion returns. *)
Definition ToString_property (p : Property) : Completion string :=
  match p with
  | Data v => ToString v
  | NativeFunction name =>
      Normal (String.append "function "
                (String.append name "() { [native code] }"))
  | ObjectPrototype => Normal "[object Object]"
  end.

(** [arr.some(f)]: stops at the first element for which [f] is true or
    raises. *)
Fixpoint some {A : Type} (f : A → Completion bool) (arr : list A)
  : Completion bool :=
  match arr with
  | [] => Normal false
  | a :: rest =>
      match f a with
      | Normal true => Normal true
      | Normal false => some f rest
      | Throw err => Throw err
      end
  end.

Definition evaluateCondition (condition : Condition.t) (answers : Answers)
  : Completion bool :=
  match Get answers (Condition.questionId condition) with
  | None | Some (Data JNull) => Normal false
  | Some answer =>
      answerStr ← ToString_property answer;
      let conditionValue := Condition.value condition in
      match Condition.operator condition with
      | equals =>
          match answer with
          | Data (JArray items) =>
              Normal (answer_includes items conditionValue)
          | _ => Normal (String.eqb answerStr (ToString_value conditionValue))
          end
      | not_equals =>
          match answer with
          | Data (JArray items) =>
              Normal (negb (answer_includes items conditionValue))
          | _ =>
              Normal (negb (String.eqb answerStr
                                       (ToString_value conditionValue)))
          end
      | contains =>
          match answer with
          | Data (JArray items) =>
              some (fun a =>
                      s ← ToString a;
                      Normal (string_includes
                                (toLowerCase s)
                                (toLowerCase (ToString_value conditionValue))))
                   items
          | _ =>
              Normal (string_includes
                        (toLowerCase answerStr)
                        (toLowerCase (ToString_value conditionValue)))
          end
      | in_ =>
          match conditionValue with
          | One _ => Normal false
          | Many l =>
              match answer with
              | Data (JArray items) =>
                  some (fun a => s ← ToString a; Normal (value_includes l s))
                       items
              | _ => Normal (value_includes l answerStr)
              end
          end
      end
  end.

(** [arr[i].id]: raises when [arr[i]] is [undefined]. *)
Definition id_at (arr : list QuestionConfig.t) (i : Z) : Completion string :=
  match (if (i <? 0)%Z then None else arr !! Z.to_nat i) with
  | Some q => Normal (QuestionConfig.id q)
  | None => Throw TypeError
  end.

(** The [for ... of] loop over the branch rules: [Some target] when the
    loop returns, [None] when it runs to its end. *)
Fixpoint branchLoop (branches : list BranchRule.t) (answers : Answers)
  : Completion (option (option string)) :=
  match branches with
  | [] => Normal None
  | branch :: rest =>
      match evaluateCondition (BranchRule.condition branch) answers with
      | Normal true => Normal (Some (BranchRule.nextQuestionId branch))
      | Normal false => branchLoop rest answers
      | Throw err => Throw err
      end
  end.

Definition getNextQuestionId (currentQuestion : QuestionConfig.t)
    (allQuestions : list QuestionConfig.t) (answers : Answers)
  : Completion (option string) :=
  fromBranches ←
    match QuestionConfig.branches currentQuestion with
    | Some branches =>
        if (0 <? Z.of_nat (length branches))%Z
        then branchLoop branches answers
        else Normal None
    | None => Normal None
    end;
  match fromBranches with
  | Some target => Normal target
  | None =>
      match QuestionConfig.defaultNextId currentQuestion with
      | Configured target => Normal target
      | Undefined =>
          let currentIndex :=
            findIndex (same_id (QuestionConfig.id currentQuestion))
                      allQuestions in
          if (0 <=? currentIndex)%Z &&
             (currentIndex <? Z.of_nat (length allQuestions) - 1)%Z
          then next ← id_at allQuestions (currentIndex + 1)%Z;
               Normal (Some next)
          else Normal None
      end
  end.

(** The [while] loop, [remaining] being [maxIterations - iterations]. *)
Fixpoint pathLoop (remaining : nat) (questions : list QuestionConfig.t)
    (answers : Answers) (visited : gset string)
    (currentId : option string) (path : list QuestionConfig.t)
  : Completion (list QuestionConfig.t) :=
  match remaining with
  | O => Normal path
  | S remaining' =>
      match currentId with
      | None => Normal path
      | Some cur =>
          if negb (truthy_string cur) then Normal path
          else if decide (cur ∈ visited) then Normal path
          else
            match find (same_id cur) questions with
            | None => Normal path
            | Some question =>
                next ← getNextQuestionId question questions answers;
                pathLoop remaining' questions answers
                         ({[ cur ]} ∪ visited) next (path ++ [question])
            end
      end
  end.

Definition getQuestionPath (questions : list QuestionConfig.t)
    (answers : Answers) (startFromId : option string)
  : Completion (list QuestionConfig.t) :=
  if (length questions =? 0)%nat then Normal []
  else
    start ←
      match startFromId with
      | Some s => if truthy_string s then Normal s else id_at questions 0%Z
      | None => id_at questions 0%Z
      end;
    let maxIterations := (length questions * 2)%nat in
    pathLoop maxIterations questions answers ∅ (Some start) [].

(** [Array.from({ length: len }, (_, i) => String(lo + i))]: a length
    that is not positive gives the empty array, a length above
    [2^32 - 1] is refused. *)
Definition range_strings (lo len : Z) : Completion (list string) :=
  if (2 ^ 32 - 1 <? len)%Z then Throw RangeError
  else Normal (map (fun i => pretty (lo + Z.of_nat i)%Z)
                   (seq 0 (Z.to_nat len))).

Definition getQuestionValues (question : QuestionConfig.t)
  : Completion (list string) :=
  match QuestionConfig.type question with
  | dropdown | checkboxes =>
      match QuestionConfig.options question with
      | Some opts => Normal opts
      | None => Normal []
      end
  | yes_no => Normal ["Yes"; "No"]
  | rating =>
      let minRating := number_or (QuestionConfig.minValue question) 1 in
      let maxRating := number_or (QuestionConfig.maxValue question) 5 in
      range_strings minRating (maxRating - minRating + 1)
  | opinion_scale =>
      let minScale := number_or (QuestionConfig.minValue question) 1 in
      let maxScale := number_or (QuestionConfig.maxValue question) 10 in
      range_strings minScale (maxScale - minScale + 1)
  | _ => Normal []
  end.

(** A call of one of the module's exported functions, and what it
    yields. *)
Inductive Call : Type :=
| call_evaluateCondition (condition : Condition.t) (answers : Answers)
| call_getNextQuestionId (currentQuestion : QuestionConfig.t)
    (allQuestions : list QuestionConfig.t) (answers : Answers)
| call_getQuestionPath (questions : list QuestionConfig.t)
    (answers : Answers) (startFromId : option string)
| call_hasBranching (question : QuestionConfig.t)
| call_getBranchableQuestions (currentQuestion : QuestionConfig.t)
    (allQuestions : list QuestionConfig.t)
| call_getConditionableQuestions (currentQuestion : QuestionConfig.t)
    (allQuestions : list QuestionConfig.t)
| call_getQuestionValues (question : QuestionConfig.t)
| call_createBranchRule (questionId : string)
    (operator : option BranchOperator) (value : option string)
    (nextQuestionId : option (option string)).

Inductive Result : Type :=
| result_boolean (c : Completion bool)
| result_id (c : Completion (option string))
| result_questions (c : Completion (list QuestionConfig.t))
| result_strings (c : Completion (list string))
| result_rule (r : BranchRule.t).

(** Running a call in a state [w] of the platform's generator, the only
    state outside its arguments that the module reaches. *)
Definition run {W : Type} `{Crypto W} (c : Call) (w : W) : Result * W :=
  match c with
  | call_evaluateCondition condition answers =>
      (result_boolean (evaluateCondition condition answers), w)
  | call_getNextQuestionId q l answers =>
      (result_id (getNextQuestionId q l answers), w)
  | call_getQuestionPath l answers start =>
      (result_questions (getQuestionPath l answers start), w)
  | call_hasBranching q => (result_boolean (Normal (hasBranching q)), w)
  | call_getBranchableQuestions q l =>
      (result_questions (Normal (getBranchableQuestions q l)), w)
  | call_getConditionableQuestions q l =>
      (result_questions (Normal (getConditionableQuestions q l)), w)
  | call_getQuestionValues q => (result_strings (getQuestionValues q), w)
  | call_createBranchRule questionId operator value nextQuestionId =>
      let '(rule, w') :=
        createBranchRule questionId operator value nextQuestionId w in
      (result_rule rule, w')
  end.

Definition is_createBranchRule (c : Call) : bool :=
  match c with
  | call_createBranchRule _ _ _ _ => true
  | _ => false
  end.

End Runtime.

(** Data that [String] converts: no object with an own [toString]
    property, at any depth of nested arrays. *)
Fixpoint plain (v : Json) : bool :=
  match v with
  | JObject fields => negb (Runtime.has_own "toString" fields)
  | JArray items => forallb plain items
  | _ => true
  end.

Definition plain_answers (answers : Answers) : Prop :=
  map_Forall (fun _ v => plain v = true) answers.

#[global] Instance QuestionType_eq_dec : EqDecision QuestionType.
Proof. solve_decision. Defined.

(** * Specification-level definitions *)

(** A single scalar answer: a string, a number or a boolean. *)
Definition scalar (answer : Json) : Prop :=
  match answer with
  | JString _ | JNumber _ | JBoolean _ => True
  | _ => False
  end.

(** The condition value is an element of the answer list, the way
    [includes] finds it: as the very same string. *)
Definition member (v : ConditionValue) (items : list Json) : Prop :=
  match v with
  | One s => JString s ∈ items
  | Many _ => False
  end.

(** C5, as the claim words it: on a list answer, [equals] would hold
    exactly when some element's string conversion is the condition value. *)
Definition equals_by_converted_membership
    (qid : string) (s : string) (items : list Json) (answers : Answers)
  : Prop :=
  evaluateCondition (Condition.mk qid equals (One s)) answers = true
  ↔ ∃ x, x ∈ items ∧ ToString x = s.

(** The precedence of the resolver on plain data. *)

(** First rule, in declared order, whose condition evaluates true. *)
Definition first_true_rule (rules : list BranchRule.t) (answers : Answers)
  : option BranchRule.t :=
  find (fun r => evaluateCondition (BranchRule.condition r) answers) rules.

(** Structural order as the code takes it: the id of the question right
    after the first question of the list that carries the id [cur], or
    END when that question is last or no question carries the id. *)
Fixpoint following (cur : string) (l : list QuestionConfig.t)
  : option string :=
  match l with
  | [] => None
  | q :: rest =>
      if same_id cur q then QuestionConfig.id <$> head rest
      else following cur rest
  end.

Definition resolve_spec (q : QuestionConfig.t)
    (l : list QuestionConfig.t) (answers : Answers) : option string :=
  match first_true_rule (default [] (QuestionConfig.branches q)) answers with
  | Some r => BranchRule.nextQuestionId r
  | None =>
      match QuestionConfig.defaultNextId q with
      | Configured target => target
      | Undefined => following (QuestionConfig.id q) l
      end
  end.

(** The value list of a bounded-numeric question in the spec's words: the
    inclusive range from the configured minimum to the configured
    maximum, a bound that is not configured taking its default. *)
Definition inclusive_range (lo hi : Z) : list string :=
  (λ i, pretty (lo + Z.of_nat i)%Z) <$> seq 0 (Z.to_nat (hi - lo + 1)).

Definition questionValues_spec (question : QuestionConfig.t)
    (defaultMin defaultMax : Z) : list string :=
  inclusive_range (default defaultMin (QuestionConfig.minValue question))
                  (default defaultMax (QuestionConfig.maxValue question)).

(** The cursor values at which the projector's loop stops without
    appending: END, the empty id, an id seen before, or an id that no
    question of the list carries. *)
Definition stops (l : list QuestionConfig.t) (seen : gset string)
    (cursor : option string) : Prop :=
  cursor = None
  ∨ cursor = Some ""
  ∨ ∃ s, cursor = Some s
         ∧ (s ∈ seen ∨ ∀ y, y ∈ l → QuestionConfig.id y ≠ s).

(** The third tier of C2 as the claim words it: whenever the current
    question stands in the list, the result is the id of the question
    right after it, END when it stands last. *)
Definition structural_order_as_claimed (q : QuestionConfig.t)
    (l : list QuestionConfig.t) (result : option string) : Prop :=
  ∀ pre rest, l = pre ++ q :: rest →
              result = QuestionConfig.id <$> head rest.

(** C10 as the claim words it: a question that is not in the list, none
    of whose rules evaluates to true and whose default-next is not
    configured, resolves to END. *)
Definition absent_resolves_to_end (q : QuestionConfig.t)
    (l : list QuestionConfig.t) (answers : Answers) : Prop :=
  (∀ y, y ∈ l → QuestionConfig.id y ≠ QuestionConfig.id q) →
  (∀ r, r ∈ default [] (QuestionConfig.branches q) →
        Runtime.evaluateCondition (BranchRule.condition r) answers
        ≠ Runtime.Normal true) →
  QuestionConfig.defaultNextId q = Undefined →
  Runtime.getNextQuestionId q l answers = Runtime.Normal None.

(** * Sample data *)

(** A question with no options, range, rules or default. *)
Definition bare (i : string) (ty : QuestionType) : QuestionConfig.t :=
  QuestionConfig.mk i ty "" None false None None None None None None
                    None Undefined.

Definition with_branches (q : QuestionConfig.t) (bs : list BranchRule.t)
  : QuestionConfig.t :=
  QuestionConfig.mk (QuestionConfig.id q) (QuestionConfig.type q)
    (QuestionConfig.title q) (QuestionConfig.description q)
    (QuestionConfig.required q) (QuestionConfig.options q)
    (QuestionConfig.minValue q) (QuestionConfig.maxValue q)
    (QuestionConfig.allowedFileTypes q) (QuestionConfig.maxFileSize q)
    (QuestionConfig.placeholder q) (Some bs) (QuestionConfig.defaultNextId q).

Definition with_default (q : QuestionConfig.t) (d : option string)
  : QuestionConfig.t :=
  QuestionConfig.mk (QuestionConfig.id q) (QuestionConfig.type q)
    (QuestionConfig.title q) (QuestionConfig.description q)
    (QuestionConfig.required q) (QuestionConfig.options q)
    (QuestionConfig.minValue q) (QuestionConfig.maxValue q)
    (QuestionConfig.allowedFileTypes q) (QuestionConfig.maxFileSize q)
    (QuestionConfig.placeholder q) (QuestionConfig.branches q) (Configured d).

Definition with_range (q : QuestionConfig.t) (lo hi : option Z)
  : QuestionConfig.t :=
  QuestionConfig.mk (QuestionConfig.id q) (QuestionConfig.type q)
    (QuestionConfig.title q) (QuestionConfig.description q)
    (QuestionConfig.required q) (QuestionConfig.options q)
    lo hi
    (QuestionConfig.allowedFileTypes q) (QuestionConfig.maxFileSize q)
    (QuestionConfig.placeholder q) (QuestionConfig.branches q)
    (QuestionConfig.defaultNextId q).

Module EndToEnd.
Definition Q1 : QuestionConfig.t :=
  with_branches (bare "Q1" dropdown)
    [BranchRule.mk "r1" (Condition.mk "Q1" equals (One "Red")) (Some "Q3")].
Definition Q2 : QuestionConfig.t := bare "Q2" short_text.
Definition Q3 : QuestionConfig.t := bare "Q3" short_text.
Definition questions : list QuestionConfig.t := [Q1; Q2; Q3].
End EndToEnd.

Module TwoCycle.
Definition A : QuestionConfig.t :=
  with_default (bare "A" short_text) (Some "B").
Definition B : QuestionConfig.t :=
  with_default (bare "B" short_text) (Some "A").
End TwoCycle.

Definition scale_0_10 : QuestionConfig.t :=
  with_range (bare "nps" opinion_scale) (Some 0%Z) (Some 10%Z).

(** A generator that hands out the successive numbers: its state is the
    number of ids drawn so far. *)
#[local] Instance counter : Crypto nat := {|
  randomUUID n := (String.append "uuid-" (pretty n), S n)
|}.

(** * The branch editor

    The handlers of the [BranchEditor] component. A handler that calls
    [onUpdate] returns the update it passes; [None] is a handler that
    returns without calling it. *)

(** [possibleValues[0] || '']. *)
Definition first_value_or_empty (possibleValues : list string) : string :=
  match head possibleValues with
  | Some v => if truthy_string v then v else ""
  | None => ""
  end.

(** [branchableQuestions[0]?.id || null]. *)
Definition first_id_or_null (branchableQuestions : list QuestionConfig.t)
  : option string :=
  match head branchableQuestions with
  | Some q =>
      if truthy_string (QuestionConfig.id q) then Some (QuestionConfig.id q)
      else None
  | None => None
  end.

Definition canBranch (question : QuestionConfig.t)
    (allQuestions : list QuestionConfig.t) : bool :=
  (0 <? length (getConditionableQuestions question allQuestions)) &&
  (0 <? length (getBranchableQuestions question allQuestions)).

Definition addBranch {W : Type} `{Crypto W} (question : QuestionConfig.t)
    (allQuestions : list QuestionConfig.t) (w : W)
  : option (list BranchRule.t) * W :=
  let conditionableQuestions :=
    getConditionableQuestions question allQuestions in
  let branchableQuestions := getBranchableQuestions question allQuestions in
  let branches := default [] (QuestionConfig.branches question) in
  match conditionableQuestions with
  | [] => (None, w)
  | firstConditionQuestion :: _ =>
      let possibleValues := getQuestionValues firstConditionQuestion in
      let '(newBranch, w') :=
        createBranchRule (QuestionConfig.id firstConditionQuestion)
          (Some equals)
          (Some (first_value_or_empty possibleValues))
          (Some (first_id_or_null branchableQuestions)) w in
      (Some (branches ++ [newBranch]), w')
  end.

(** [arr.filter((x, i) => p(x, i))], the positions counted from [i]. *)
Fixpoint filter_indexed {A : Type} (p : A → Z → bool) (arr : list A) (i : Z)
  : list A :=
  match arr with
  | [] => []
  | x :: rest =>
      if p x i then x :: filter_indexed p rest (i + 1)%Z
      else filter_indexed p rest (i + 1)%Z
  end.

Definition deleteBranch (question : QuestionConfig.t) (index : Z)
  : list BranchRule.t :=
  let branches := default [] (QuestionConfig.branches question) in
  filter_indexed (fun _ i => negb (i =? index)%Z) branches 0%Z.

(** The value shown by the default-next select:
    [defaultNextId === null ? '_end' : defaultNextId || '_continue']. *)
Definition defaultNext_select_value (question : QuestionConfig.t) : string :=
  match QuestionConfig.defaultNextId question with
  | Configured None => "_end"
  | Configured (Some target) =>
      if truthy_string target then target else "_continue"
  | Undefined => "_continue"
  end.

(** [onValueChange] of the default-next select: the [defaultNextId] it
    passes to [onUpdate]. *)
Definition defaultNext_onValueChange (value : string) : DefaultNext :=
  if String.eqb value "_continue" then Undefined
  else if String.eqb value "_end" then Configured None
  else Configured (Some value).

(** [getQuestionTitle] of the editor. *)
Definition getQuestionTitle (q : QuestionConfig.t) : string :=
  let title :=
    if truthy_string (QuestionConfig.title q) then QuestionConfig.title q
    else "Untitled" in
  if (30 <? String.length title)%nat
  then String.append (String.substring 0 30 title) "..."
  else title.

(** * The location input

    [parseLocationFromFeature] of the [LocationInput] component. The
    coordinates are only copied, so their type is left open. *)

Module MapboxContext.
Record t : Type := mk {
  id : string;
  text : string;
  short_code : option string
}.
End MapboxContext.

Module MapboxFeature.
Record t (coord : Type) : Type := mk {
  id : string;
  place_name : string;
  center : coord * coord;
  context : option (list MapboxContext.t);
  properties : option (option string)
}.
Arguments mk {coord}.
Arguments id {coord}.
Arguments place_name {coord}.
Arguments center {coord}.
Arguments context {coord}.
Arguments properties {coord}.
End MapboxFeature.

Module LocationAnswer.
Record t (coord : Type) : Type := mk {
  place_name : string;
  city : option string;
  state : option string;
  country : option string;
  postcode : option string;
  latitude : coord;
  longitude : coord
}.
Arguments mk {coord}.
Arguments place_name {coord}.
Arguments city {coord}.
Arguments state {coord}.
Arguments country {coord}.
Arguments postcode {coord}.
Arguments latitude {coord}.
Arguments longitude {coord}.
End LocationAnswer.

(** The four variables [city], [state], [country], [postcode] that the
    [forEach] callback assigns. *)
Module Components.
Record t : Type := mk {
  city : option string;
  state : option string;
  country : option string;
  postcode : option string
}.
End Components.

(** [!city]: undefined, or the empty string. *)
Definition falsy_optional (s : option string) : bool :=
  match s with
  | Some t => negb (truthy_string t)
  | None => true
  end.

(** The body of the [forEach] callback. *)
Definition context_step (c : Components.t) (ctx : MapboxContext.t)
  : Components.t :=
  let i := MapboxContext.id ctx in
  let text := MapboxContext.text ctx in
  if String.prefix "place." i then
    Components.mk (Some text) (Components.state c) (Components.country c)
                  (Components.postcode c)
  else if String.prefix "region." i then
    Components.mk (Components.city c) (Some text) (Components.country c)
                  (Components.postcode c)
  else if String.prefix "country." i then
    Components.mk (Components.city c) (Components.state c) (Some text)
                  (Components.postcode c)
  else if String.prefix "postcode." i then
    Components.mk (Components.city c) (Components.state c)
                  (Components.country c) (Some text)
  else if String.prefix "locality." i then
    if falsy_optional (Components.city c)
    then Components.mk (Some text) (Components.state c)
                       (Components.country c) (Components.postcode c)
    else c
  else c.

(** [s.split(',')[0]]: the characters before the first comma. *)
Fixpoint before_comma (s : string) : string :=
  match s with
  | EmptyString => EmptyString
  | String c s' =>
      if Ascii.eqb c "," then EmptyString else String c (before_comma s')
  end.

Definition parseLocationFromFeature {coord : Type}
    (feature : MapboxFeature.t coord) : LocationAnswer.t coord :=
  let parsed :=
    fold_left context_step
              (default [] (MapboxFeature.context feature))
              (Components.mk None None None None) in
  let city :=
    if String.prefix "place." (MapboxFeature.id feature)
    then Some (before_comma (MapboxFeature.place_name feature))
    else Components.city parsed in
  LocationAnswer.mk (MapboxFeature.place_name feature) city
    (Components.state parsed) (Components.country parsed)
    (Components.postcode parsed)
    (MapboxFeature.center feature).2 (MapboxFeature.center feature).1.

(** * Worked examples *)

Example contains_is_case_insensitive :
  evaluateCondition (Condition.mk "q" contains (One "ab"))
                    {[ "q" := JString "XAB" ]} = true.
Proof. reflexivity. Qed.

Example in_needs_a_list :
  evaluateCondition (Condition.mk "q" in_ (One "x"))
                    {[ "q" := JString "x" ]} = false.
Proof. reflexivity. Qed.

Example resolve_red :
  getNextQuestionId EndToEnd.Q1 EndToEnd.questions
                    {[ "Q1" := JString "Red" ]}
  = Ok (Some "Q3").
Proof. vm_compute. reflexivity. Qed.

Example project_red :
  getQuestionPath EndToEnd.questions {[ "Q1" := JString "Red" ]} None
  = Ok [EndToEnd.Q1; EndToEnd.Q3].
Proof. vm_compute. reflexivity. Qed.

Example resolve_blue :
  getNextQuestionId EndToEnd.Q1 EndToEnd.questions
                    {[ "Q1" := JString "Blue" ]}
  = Ok (Some "Q2").
Proof. vm_compute. reflexivity. Qed.

Example project_blue :
  getQuestionPath EndToEnd.questions {[ "Q1" := JString "Blue" ]} None
  = Ok [EndToEnd.Q1; EndToEnd.Q2; EndToEnd.Q3].
Proof. vm_compute. reflexivity. Qed.

Example project_cycle :
  getQuestionPath [TwoCycle.A; TwoCycle.B] ∅ None
  = Ok [TwoCycle.A; TwoCycle.B].
Proof. vm_compute. reflexivity. Qed.

Example project_cycle_from_B :
  getQuestionPath [TwoCycle.A; TwoCycle.B] ∅ (Some "B")
  = Ok [TwoCycle.B; TwoCycle.A].
Proof. vm_compute. reflexivity. Qed.

Example rating_1_5 :
  getQuestionValues (with_range (bare "r" rating) (Some 1%Z) (Some 5%Z))
  = ["1"; "2"; "3"; "4"; "5"].
Proof. vm_compute. reflexivity. Qed.

(** * Properties of the condition evaluator *)

Section Evaluator.
Implicit Types (qid : string) (v : ConditionValue) (answers : Answers).
Implicit Types (answer : Json) (items : list Json) (l : list string).

Lemma strict_equals_string_spec (x : Json) (s : string) :
  strict_equals_string x s = true ↔ x = JString s.
Proof.
  destruct x; simpl; try (split; [discriminate | by inversion 1]).
  rewrite String.eqb_eq. split; [by intros -> | by inversion 1].
Qed.

Lemma answer_includes_spec items v :
  answer_includes items v = true ↔ member v items.
Proof.
  destruct v as [s | l]; simpl; [| split; [discriminate | done]].
  rewrite existsb_exists. split.
  - intros (x & Hin & Heq). apply strict_equals_string_spec in Heq.
    subst x. by apply list_elem_of_In.
  - intros Hin. exists (JString s). split; [by apply list_elem_of_In |].
    by apply strict_equals_string_spec.
Qed.

Lemma value_includes_spec l (s : string) :
  value_includes l s = true ↔ s ∈ l.
Proof.
  unfold value_includes. rewrite existsb_exists. split.
  - intros (x & Hin & Heq). apply String.eqb_eq in Heq. subst x.
    by apply list_elem_of_In.
  - intros Hin. exists s. split; [by apply list_elem_of_In |].
    by apply String.eqb_eq.
Qed.

Lemma negb_true_not (b : bool) (P : Prop) :
  (b = true ↔ P) → (negb b = true ↔ ¬ P).
Proof.
  intros [H1 H2]. destruct b; simpl; split.
  - discriminate.
  - intros HnP. exfalso. by apply HnP, H1.
  - intros _ HP. by apply H2 in HP.
  - done.
Qed.
End Evaluator.








(** * Properties of the next-question resolver *)

Section Resolver.
Implicit Types (q : QuestionConfig.t) (l : list QuestionConfig.t).
Implicit Types (answers : Answers) (cur : string).

Lemma branchLoop_first_true (rules : list BranchRule.t) answers :
  branchLoop rules answers
  = BranchRule.nextQuestionId <$> first_true_rule rules answers.
Proof.
  induction rules as [| r rules IH]; simpl; [done |].
  by destruct (evaluateCondition _ _).
Qed.

Lemma branchLoop_all_false (rules : list BranchRule.t) answers :
  (∀ r, r ∈ rules →
        evaluateCondition (BranchRule.condition r) answers = false) →
  branchLoop rules answers = None.
Proof.
  induction rules as [| r rules IH]; simpl; intros Hall; [done |].
  rewrite (Hall r) by apply list_elem_of_here.
  apply IH. intros r' Hr'. apply Hall. by apply list_elem_of_further.
Qed.

(** What [findIndex] returns: [-1] when no element qualifies, else the
    length of the longest prefix without a qualifying element. *)
Lemma findIndex_from_absent {A} (p : A → bool) (xs : list A) (i : Z) :
  (∀ x, x ∈ xs → p x = false) → findIndex_from p xs i = (-1)%Z.
Proof.
  revert i. induction xs as [| x xs IH]; intros i Hall; simpl; [done |].
  rewrite (Hall x) by apply list_elem_of_here.
  apply IH. intros y Hy. apply Hall. by apply list_elem_of_further.
Qed.

Lemma findIndex_from_found {A} (p : A → bool) (pre : list A) (x : A)
    (rest : list A) (i : Z) :
  (∀ y, y ∈ pre → p y = false) → p x = true →
  findIndex_from p (pre ++ x :: rest) i = (i + Z.of_nat (length pre))%Z.
Proof.
  revert i. induction pre as [| y pre IH]; intros i Hpre Hx; simpl.
  - rewrite Hx. lia.
  - rewrite (Hpre y) by apply list_elem_of_here.
    rewrite IH; [lia | | done].
    intros z Hz. apply Hpre. by apply list_elem_of_further.
Qed.

(** Every list either has no qualifying element or splits at the first. *)
Lemma first_split {A} (p : A → bool) (xs : list A) :
  (∀ x, x ∈ xs → p x = false)
  ∨ ∃ pre x rest, xs = pre ++ x :: rest
                  ∧ (∀ y, y ∈ pre → p y = false) ∧ p x = true.
Proof.
  induction xs as [| x xs IH].
  - left. intros x Hx. by apply elem_of_nil in Hx.
  - destruct (p x) eqn:Hpx.
    + right. exists [], x, xs. split; [done |]. split; [| done].
      intros y Hy. by apply elem_of_nil in Hy.
    + destruct IH as [Hall | (pre & y & rest & -> & Hpre & Hy)].
      * left. intros z Hz. apply elem_of_cons in Hz as [-> | Hz]; auto.
      * right. exists (x :: pre), y, rest. split; [done |].
        split; [| done].
        intros z Hz. apply elem_of_cons in Hz as [-> | Hz]; auto.
Qed.

Lemma following_absent cur l :
  (∀ q, q ∈ l → same_id cur q = false) → following cur l = None.
Proof.
  induction l as [| q l IH]; intros Hall; simpl; [done |].
  rewrite (Hall q) by apply list_elem_of_here.
  apply IH. intros q' Hq'. apply Hall. by apply list_elem_of_further.
Qed.

Lemma following_found cur (pre : list QuestionConfig.t) q
    (rest : list QuestionConfig.t) :
  (∀ y, y ∈ pre → same_id cur y = false) → same_id cur q = true →
  following cur (pre ++ q :: rest) = QuestionConfig.id <$> head rest.
Proof.
  induction pre as [| y pre IH]; intros Hpre Hq; simpl.
  - by rewrite Hq.
  - rewrite (Hpre y) by apply list_elem_of_here.
    apply IH; [| done].
    intros z Hz. apply Hpre. by apply list_elem_of_further.
Qed.

(** The linear fallback of the code is [following]. *)
Lemma linear_fallback cur l :
  (let currentIndex := findIndex (same_id cur) l in
   if (0 <=? currentIndex)%Z &&
      (currentIndex <? Z.of_nat (length l) - 1)%Z
   then next ← id_at l (currentIndex + 1)%Z; Ok (Some next)
   else Ok None)
  = Ok (following cur l).
Proof.
  simpl. unfold findIndex.
  destruct (first_split (same_id cur) l)
    as [Hall | (pre & q & rest & -> & Hpre & Hq)].
  - rewrite findIndex_from_absent, following_absent by done. done.
  - rewrite findIndex_from_found, following_found by done.
    rewrite length_app; simpl.
    destruct rest as [| n rest]; simpl.
    + replace (_ && _) with false; [done |].
      symmetry. apply andb_false_iff. right. apply Z.ltb_ge. lia.
    + replace (_ && _) with true.
      2:{ symmetry. apply andb_true_iff. split;
          [apply Z.leb_le | apply Z.ltb_lt]; lia. }
      unfold id_at.
      replace (_ <? 0)%Z with false by (symmetry; apply Z.ltb_ge; lia).
      replace (Z.to_nat _) with (length pre + 1)%nat by lia.
      rewrite lookup_app_r by lia.
      replace (_ - _)%nat with 1%nat by lia. done.
Qed.

(** The resolver never raises, and computes the spec's precedence. *)
Lemma getNextQuestionId_resolve q l answers :
  getNextQuestionId q l answers = Ok (resolve_spec q l answers).
Proof.
  unfold getNextQuestionId, resolve_spec.
  destruct (QuestionConfig.branches q) as [rules |]; simpl.
  - assert (Hloop :
      (if (0 <? Z.of_nat (length rules))%Z
       then branchLoop rules answers else None)
      = BranchRule.nextQuestionId <$> first_true_rule rules answers).
    { destruct rules; [done |].
      replace (_ <? _)%Z with true
        by (symmetry; apply Z.ltb_lt; simpl; lia).
      apply branchLoop_first_true. }
    rewrite Hloop.
    destruct (first_true_rule rules answers); simpl; [done |].
    destruct (QuestionConfig.defaultNextId q); [| done].
    apply linear_fallback.
  - destruct (QuestionConfig.defaultNextId q); [| done].
    apply linear_fallback.
Qed.
End Resolver.

(** * Properties of the path projector *)

Section Projector.
Implicit Types (q : QuestionConfig.t) (l path : list QuestionConfig.t).
Implicit Types (answers : Answers) (visited : gset string).

Lemma find_same_id cur l q :
  find (same_id cur) l = Some q → q ∈ l ∧ QuestionConfig.id q = cur.
Proof.
  intros Hfind. apply find_some in Hfind as [Hin Hid].
  split; [by apply list_elem_of_In | by apply String.eqb_eq].
Qed.

(** Invariant of the [while] loop: it returns the path it was given,
    extended by at most one question per iteration left; the added
    questions come from the list, carry pairwise distinct ids, and none of
    those ids had been visited before. *)
Lemma pathLoop_extends (remaining : nat) l answers visited
    (currentId : option string) path :
  ∃ ext,
    pathLoop remaining l answers visited currentId path = Ok (path ++ ext)
    ∧ length ext ≤ remaining
    ∧ Forall (λ q, q ∈ l) ext
    ∧ NoDup (QuestionConfig.id <$> ext)
    ∧ Forall (λ q, QuestionConfig.id q ∉ visited) ext.
Proof.
  revert visited currentId path.
  induction remaining as [| remaining IH]; intros visited currentId path.
  { exists []. simpl. rewrite app_nil_r.
    repeat split; auto using NoDup_nil_2. }
  assert (Hstop : ∃ ext, Ok path = Ok (path ++ ext)
            ∧ length ext ≤ S remaining ∧ Forall (λ q, q ∈ l) ext
            ∧ NoDup (QuestionConfig.id <$> ext)
            ∧ Forall (λ q, QuestionConfig.id q ∉ visited) ext).
  { exists []. rewrite app_nil_r.
    repeat split; simpl; auto using NoDup_nil_2 with lia. }
  simpl. destruct currentId as [cur |]; [| exact Hstop].
  destruct (truthy_string cur); simpl; [| exact Hstop].
  destruct (decide (cur ∈ visited)) as [Hseen | Hfresh]; [exact Hstop |].
  destruct (find (same_id cur) l) as [question |] eqn:Hfind; [| exact Hstop].
  apply find_same_id in Hfind as [Hin Hid].
  rewrite getNextQuestionId_resolve. simpl.
  destruct (IH ({[cur]} ∪ visited) (resolve_spec question l answers)
               (path ++ [question]))
    as (ext & Hrun & Hlen & Hfrom & Hnodup & Hnew).
  exists (question :: ext). rewrite Hrun, <- app_assoc. simpl.
  split; [done |]. split; [lia |]. split; [by constructor |]. split.
  - apply NoDup_cons. split; [| done].
    intros Hdup. apply list_elem_of_fmap in Hdup as (q' & Hq' & Hmem).
    rewrite Forall_forall in Hnew. apply (Hnew q' Hmem).
    rewrite <- Hq', Hid. apply elem_of_union_l. by apply elem_of_singleton.
  - constructor; [by rewrite Hid |].
    eapply Forall_impl; [exact Hnew |]. simpl.
    intros q' Hq' Hold. apply Hq'. by apply elem_of_union_r.
Qed.

(** Distinct ids drawn from the list: no more of them than questions. *)
Lemma distinct_ids_bounded l path :
  Forall (λ q, q ∈ l) path →
  NoDup (QuestionConfig.id <$> path) →
  length path ≤ length l.
Proof.
  intros Hfrom Hnodup.
  rewrite <- (length_fmap QuestionConfig.id path).
  rewrite <- (length_fmap QuestionConfig.id l).
  apply submseteq_length, NoDup_submseteq; [done |].
  intros i Hi. apply list_elem_of_fmap in Hi as (q & -> & Hq).
  apply list_elem_of_fmap. exists q. split; [done |].
  rewrite Forall_forall in Hfrom. by apply Hfrom.
Qed.

(** The projector returns, and what it returns is drawn from the list
    without repeating an id, one question at most per iteration. *)
Lemma getQuestionPath_sound l answers (startFromId : option string) :
  ∃ path,
    getQuestionPath l answers startFromId = Ok path
    ∧ length path ≤ 2 * length l
    ∧ Forall (λ q, q ∈ l) path
    ∧ NoDup (QuestionConfig.id <$> path).
Proof.
  unfold getQuestionPath. destruct l as [| q0 l].
  { exists []. simpl. repeat split; auto using NoDup_nil_2. }
  simpl length. simpl Nat.eqb. cbv iota.
  assert (Hstart : ∃ start,
            match startFromId with
            | Some s => if truthy_string s then Ok s
                        else id_at (q0 :: l) 0%Z
            | None => id_at (q0 :: l) 0%Z
            end = Ok start).
  { destruct startFromId as [s |]; [destruct (truthy_string s) |];
      eexists; reflexivity. }
  destruct Hstart as [start ->]. simpl mbind. unfold Outcome_bind.
  destruct (pathLoop_extends (S (length l) * 2) (q0 :: l) answers ∅
              (Some start) [])
    as (ext & Hrun & Hlen & Hfrom & Hnodup & _).
  exists ext. split; [exact Hrun |]. split; [simpl in *; lia | done].
Qed.
End Projector.


(** * Properties of the value queries *)

Lemma number_or_nonzero (x : option Z) (d : Z) :
  x ≠ Some 0%Z → number_or x d = default d x.
Proof.
  destruct x as [n |]; simpl; [| done].
  intros Hn. unfold truthy_number.
  destruct (Z.eqb_spec n 0) as [-> | _]; [by destruct Hn | done].
Qed.

(** Where no bound is configured as [0], the code computes the range of
    the spec, with the defaults 1-5 and 1-10. *)
Lemma getQuestionValues_range (question : QuestionConfig.t) :
  QuestionConfig.minValue question ≠ Some 0%Z →
  QuestionConfig.maxValue question ≠ Some 0%Z →
  (QuestionConfig.type question = rating →
   getQuestionValues question = questionValues_spec question 1 5)
  ∧ (QuestionConfig.type question = opinion_scale →
     getQuestionValues question = questionValues_spec question 1 10).
Proof.
  intros Hmin Hmax. unfold getQuestionValues, questionValues_spec.
  split; intros ->; rewrite !number_or_nonzero by done; reflexivity.
Qed.

(** Every type outside the choice-like, boolean-like and bounded-numeric
    kinds has no values. *)
Lemma getQuestionValues_other (question : QuestionConfig.t) :
  QuestionConfig.type question ∉
    [dropdown; checkboxes; yes_no; rating; opinion_scale] →
  getQuestionValues question = [].
Proof.
  intros Hty. unfold getQuestionValues.
  destruct (QuestionConfig.type question); try reflexivity;
    exfalso; apply Hty; repeat constructor.
Qed.

(** C7. On an opinion scale configured from 0 to 10 the spec's range
    starts at ["0"], and the code returns the range from ["1"]: the
    configured minimum [0] is taken for an absent one. *)
Theorem getQuestionValues_zero_minimum :
  getQuestionValues scale_0_10
  = ["1"; "2"; "3"; "4"; "5"; "6"; "7"; "8"; "9"; "10"]
  ∧ questionValues_spec scale_0_10 1 10
    = ["0"; "1"; "2"; "3"; "4"; "5"; "6"; "7"; "8"; "9"; "10"].
Proof. split; vm_compute; reflexivity. Qed.

(** * Determinism *)


(** * Further properties: eligibility and value queries *)

Section Queries.
Implicit Types (q cur : QuestionConfig.t) (l pre rest : list QuestionConfig.t).

Lemma QuestionType_eqb_eq (a b : QuestionType) :
  QuestionType_eqb a b = true ↔ a = b.
Proof. destruct a, b; simpl; split; (done || discriminate). Qed.

Lemma allowed_type_spec q :
  existsb (QuestionType_eqb (QuestionConfig.type q)) branchableTypes = true
  ↔ QuestionConfig.type q ∈ branchableTypes.
Proof.
  rewrite existsb_exists. split.
  - intros (ty & Hin & Heq). apply QuestionType_eqb_eq in Heq.
    rewrite Heq. by apply list_elem_of_In.
  - intros Hin. exists (QuestionConfig.type q).
    split; [by apply list_elem_of_In | by apply QuestionType_eqb_eq].
Qed.

Lemma findIndex_first q pre cur rest :
  QuestionConfig.id cur = QuestionConfig.id q →
  (∀ y, y ∈ pre → QuestionConfig.id y ≠ QuestionConfig.id q) →
  findIndex (same_id (QuestionConfig.id q)) (pre ++ cur :: rest)
  = Z.of_nat (length pre).
Proof.
  intros Hcur Hpre. unfold findIndex. rewrite findIndex_from_found; [lia | |].
  - intros y Hy. apply String.eqb_neq. by apply Hpre.
  - by apply String.eqb_eq.
Qed.

Lemma findIndex_none q l :
  (∀ y, y ∈ l → QuestionConfig.id y ≠ QuestionConfig.id q) →
  findIndex (same_id (QuestionConfig.id q)) l = (-1)%Z.
Proof.
  intros Habs. apply findIndex_from_absent.
  intros y Hy. apply String.eqb_neq. by apply Habs.
Qed.

(** Every list either lacks the id of [q] or splits at its first holder. *)
Lemma split_at_id q l :
  (∀ y, y ∈ l → QuestionConfig.id y ≠ QuestionConfig.id q)
  ∨ ∃ pre cur rest,
      l = pre ++ cur :: rest
      ∧ QuestionConfig.id cur = QuestionConfig.id q
      ∧ (∀ y, y ∈ pre → QuestionConfig.id y ≠ QuestionConfig.id q).
Proof.
  destruct (first_split (same_id (QuestionConfig.id q)) l)
    as [Hall | (pre & cur & rest & -> & Hpre & Hcur)].
  - left. intros y Hy. apply String.eqb_neq. by apply Hall.
  - right. exists pre, cur, rest. split; [done |]. split.
    + by apply String.eqb_eq.
    + intros y Hy. apply String.eqb_neq. by apply Hpre.
Qed.

Lemma getBranchableQuestions_at q pre cur rest :
  QuestionConfig.id cur = QuestionConfig.id q →
  (∀ y, y ∈ pre → QuestionConfig.id y ≠ QuestionConfig.id q) →
  getBranchableQuestions q (pre ++ cur :: rest) = rest.
Proof.
  intros Hcur Hpre. unfold getBranchableQuestions.
  rewrite findIndex_first by done.
  replace (_ <? 0)%Z with false by (symmetry; apply Z.ltb_ge; lia).
  replace (Z.to_nat _) with (length pre + 1) by lia.
  rewrite <- drop_drop, drop_app_length. done.
Qed.

Lemma getConditionableQuestions_at q pre cur rest :
  QuestionConfig.id cur = QuestionConfig.id q →
  (∀ y, y ∈ pre → QuestionConfig.id y ≠ QuestionConfig.id q) →
  getConditionableQuestions q (pre ++ cur :: rest)
  = List.filter
      (fun x => existsb (QuestionType_eqb (QuestionConfig.type x))
                        branchableTypes) pre.
Proof.
  intros Hcur Hpre. unfold getConditionableQuestions.
  rewrite findIndex_first by done.
  destruct pre as [| p pre]; [done |].
  replace (_ <=? 0)%Z with false
    by (symmetry; apply Z.leb_gt; simpl; lia).
  rewrite Nat2Z.id, take_app_length. done.
Qed.

Lemma list_filter_sublist {A} (p : A → bool) (xs : list A) :
  List.filter p xs `sublist_of` xs.
Proof.
  induction xs as [| x xs IH]; simpl; [done |].
  destruct (p x); [by apply sublist_skip | by apply sublist_cons].
Qed.

Lemma following_head_branchable q l :
  following (QuestionConfig.id q) l
  = QuestionConfig.id <$> head (getBranchableQuestions q l).
Proof.
  destruct (split_at_id q l) as [Habs | (pre & cur & rest & -> & Hcur & Hpre)].
  - rewrite following_absent.
    + unfold getBranchableQuestions. by rewrite findIndex_none.
    + intros y Hy. apply String.eqb_neq. by apply Habs.
  - rewrite getBranchableQuestions_at by done. apply following_found.
    + intros y Hy. apply String.eqb_neq. by apply Hpre.
    + by apply String.eqb_eq.
Qed.
End Queries.

Lemma branchable_sublist
    (q : QuestionConfig.t) (l : list QuestionConfig.t) :
  getBranchableQuestions q l `sublist_of` l.
Proof.
  unfold getBranchableQuestions. destruct (_ <? 0)%Z.
  - apply sublist_nil_l.
  - apply sublist_drop.
Qed.

(** X1. The questions that can be branched to are exactly those after the
    first question carrying the current id; when no question of the list
    carries it, there are none. *)
Theorem getBranchableQuestions_spec
    (q : QuestionConfig.t) (l : list QuestionConfig.t) :
  (∀ pre cur rest,
     l = pre ++ cur :: rest →
     QuestionConfig.id cur = QuestionConfig.id q →
     (∀ y, y ∈ pre → QuestionConfig.id y ≠ QuestionConfig.id q) →
     getBranchableQuestions q l = rest)
  ∧ ((∀ y, y ∈ l → QuestionConfig.id y ≠ QuestionConfig.id q) →
     getBranchableQuestions q l = []).
Proof.
  split.
  - intros pre cur rest -> Hcur Hpre. by apply getBranchableQuestions_at.
  - intros Habs. unfold getBranchableQuestions. by rewrite findIndex_none.
Qed.

Lemma getBranchableQuestions_spec_witness :
  getBranchableQuestions EndToEnd.Q1 EndToEnd.questions
  = [EndToEnd.Q2; EndToEnd.Q3].
Proof.
  refine (proj1 (getBranchableQuestions_spec EndToEnd.Q1 EndToEnd.questions)
            [] EndToEnd.Q1 [EndToEnd.Q2; EndToEnd.Q3] _ _ _).
  - reflexivity.
  - reflexivity.
  - intros y Hy. by apply elem_of_nil in Hy.
Defined.

(** X3. The questions to test followed by the questions to branch to form
    a sublist of the question list: both queries keep the list order, and
    no position is offered on both sides. *)
Theorem conditionable_then_branchable_sublist
    (q : QuestionConfig.t) (l : list QuestionConfig.t) :
  (getConditionableQuestions q l ++ getBranchableQuestions q l)
    `sublist_of` l.
Proof.
  destruct (split_at_id q l) as [Habs | (pre & cur & rest & -> & Hcur & Hpre)].
  - unfold getConditionableQuestions, getBranchableQuestions.
    rewrite findIndex_none by done. simpl. apply sublist_nil_l.
  - rewrite getConditionableQuestions_at, getBranchableQuestions_at by done.
    apply sublist_app; [apply list_filter_sublist |].
    by apply sublist_cons.
Qed.

(** Without rules and without a configured default-next the resolver
    takes the structural order. *)
Lemma resolve_without_branching
    (q : QuestionConfig.t) (l : list QuestionConfig.t) (answers : Answers) :
  hasBranching q = false →
  getNextQuestionId q l answers = Ok (following (QuestionConfig.id q) l).
Proof.
  intros Hno. rewrite getNextQuestionId_resolve. f_equal.
  unfold hasBranching in Hno. apply orb_false_iff in Hno as [Hrules Hdef].
  unfold resolve_spec.
  assert (Hnil : default [] (QuestionConfig.branches q) = []).
  { by destruct (QuestionConfig.branches q) as [[| r rules] |]. }
  rewrite Hnil. simpl.
  by destruct (QuestionConfig.defaultNextId q).
Qed.

(** X4. A question with no rule and no configured default-next goes to
    the first of its branchable questions, and to END when it has none,
    whatever the answers are. *)
Theorem no_branching_goes_to_first_branchable
    (q : QuestionConfig.t) (l : list QuestionConfig.t) (answers : Answers) :
  hasBranching q = false →
  getNextQuestionId q l answers
  = Ok (QuestionConfig.id <$> head (getBranchableQuestions q l)).
Proof.
  intros Hno. rewrite resolve_without_branching by done.
  f_equal. apply following_head_branchable.
Qed.

Lemma no_branching_goes_to_first_branchable_witness :
  getNextQuestionId EndToEnd.Q2 EndToEnd.questions
                    {[ "Q1" := JString "Red" ]}
  = Ok (QuestionConfig.id
          <$> head (getBranchableQuestions EndToEnd.Q2 EndToEnd.questions)).
Proof.
  apply no_branching_goes_to_first_branchable. reflexivity.
Defined.

(** X5. The branch editor is offered ([canBranch]) only for a question
    that has a question before it and one after it: the list then holds at
    least three questions. *)
Theorem canBranch_needs_three
    (q : QuestionConfig.t) (l : list QuestionConfig.t) :
  canBranch q l = true → 3 ≤ length l.
Proof.
  unfold canBranch. intros Hcan.
  apply andb_true_iff in Hcan as [Hcond Hbranch].
  apply Nat.ltb_lt in Hcond, Hbranch.
  destruct (split_at_id q l) as [Habs | (pre & cur & rest & -> & Hcur & Hpre)].
  - unfold getBranchableQuestions in Hbranch.
    rewrite findIndex_none in Hbranch by done. simpl in Hbranch. lia.
  - rewrite getConditionableQuestions_at in Hcond by done.
    rewrite getBranchableQuestions_at in Hbranch by done.
    pose proof (sublist_length _ _ (list_filter_sublist
      (fun x => existsb (QuestionType_eqb (QuestionConfig.type x))
                        branchableTypes) pre)) as Hlen.
    rewrite length_app. simpl. lia.
Qed.

Lemma canBranch_needs_three_witness :
  3 ≤ length [EndToEnd.Q1; EndToEnd.Q2; EndToEnd.Q3].
Proof.
  apply (canBranch_needs_three EndToEnd.Q2). reflexivity.
Defined.

Lemma map_as_fmap {A B} (f : A → B) (xs : list A) : map f xs = f <$> xs.
Proof. induction xs as [| x xs IH]; simpl; [done | by rewrite IH]. Qed.

Lemma range_strings_spec (lo len : Z) :
  NoDup (range_strings lo len)
  ∧ length (range_strings lo len) = Z.to_nat len
  ∧ ∀ s, s ∈ range_strings lo len
         ↔ ∃ n, (lo ≤ n < lo + len)%Z ∧ s = pretty n.
Proof.
  unfold range_strings. rewrite map_as_fmap. simpl ToString. split; [| split].
  - apply NoDup_fmap_2_strong; [| apply NoDup_seq].
    intros i j _ _ Heq. apply (inj pretty) in Heq. lia.
  - by rewrite length_fmap, length_seq.
  - intros s. rewrite list_elem_of_fmap. split.
    + intros (i & -> & Hi). apply elem_of_seq in Hi.
      exists (lo + Z.of_nat i)%Z. split; [lia | done].
    + intros (n & Hn & ->). exists (Z.to_nat (n - lo)). split.
      * f_equal. lia.
      * apply elem_of_seq. lia.
Qed.

(** X6. Only questions of the types that may be tested by a rule
    (dropdown, checkboxes, yes/no, rating, opinion scale) have values to
    offer: for every other type the value list is empty. *)
Theorem values_only_for_branchable_types (q : QuestionConfig.t) :
  getQuestionValues q ≠ [] →
  QuestionConfig.type q ∈ branchableTypes.
Proof.
  unfold getQuestionValues, branchableTypes.
  destruct (QuestionConfig.type q); intros Hne;
    try (exfalso; by apply Hne); repeat constructor.
Qed.

Lemma values_only_for_branchable_types_witness :
  QuestionConfig.type (bare "y" yes_no) ∈ branchableTypes.
Proof.
  apply values_only_for_branchable_types. discriminate.
Defined.

(** * Further properties: the condition evaluator *)

Section Contains.
Implicit Types (s t : string).

Lemma lower_ascii_idempotent (c : ascii) :
  lower_ascii (lower_ascii c) = lower_ascii c.
Proof. by destruct c as [[] [] [] [] [] [] [] []]. Qed.

Lemma toLowerCase_idempotent s : toLowerCase (toLowerCase s) = toLowerCase s.
Proof.
  induction s as [| c s IH]; simpl; [done |].
  by rewrite lower_ascii_idempotent, IH.
Qed.

Lemma prefix_refl s : String.prefix s s = true.
Proof.
  induction s as [| c s IH]; simpl; [done |].
  by destruct (ascii_dec c c).
Qed.

Lemma string_includes_refl s : string_includes s s = true.
Proof.
  destruct s as [| c s]; [done |].
  change (String.prefix (String c s) (String c s)
          || string_includes s (String c s) = true).
  by rewrite prefix_refl.
Qed.

Lemma string_includes_empty s : string_includes s "" = true.
Proof. by destruct s. Qed.
End Contains.

(** X8. [contains] does not see the case of ASCII letters: two condition
    values, and two string answers, that agree after lower-casing give
    the same result. *)
Theorem contains_ignores_case
    (qid : string) (v1 v2 a1 a2 : string) (answers : Answers) :
  toLowerCase v1 = toLowerCase v2 →
  toLowerCase a1 = toLowerCase a2 →
  evaluateCondition (Condition.mk qid contains (One v1))
                    (<[qid := JString a1]> answers)
  = evaluateCondition (Condition.mk qid contains (One v2))
                      (<[qid := JString a2]> answers).
Proof.
  intros Hv Ha. unfold evaluateCondition; simpl.
  rewrite !lookup_insert_eq. simpl. by rewrite Hv, Ha.
Qed.

Lemma contains_ignores_case_witness :
  evaluateCondition (Condition.mk "q" contains (One "Ab"))
                    (<["q" := JString "xAB"]> ∅)
  = evaluateCondition (Condition.mk "q" contains (One "aB"))
                      (<["q" := JString "Xab"]> ∅).
Proof.
  apply contains_ignores_case; reflexivity.
Defined.





(** * Further properties: the resolver and the projector *)

Section Frame.
Implicit Types (answers : Answers).

Lemma evaluateCondition_local (c : Condition.t) answers (answers' : Answers) :
  answers !! Condition.questionId c = answers' !! Condition.questionId c →
  evaluateCondition c answers = evaluateCondition c answers'.
Proof. unfold evaluateCondition. by intros ->. Qed.

Lemma first_true_rule_local (rules : list BranchRule.t) answers
    (answers' : Answers) :
  (∀ r, r ∈ rules →
        answers !! Condition.questionId (BranchRule.condition r)
        = answers' !! Condition.questionId (BranchRule.condition r)) →
  first_true_rule rules answers = first_true_rule rules answers'.
Proof.
  induction rules as [| r rules IH]; intros Hsame; simpl; [done |].
  rewrite (evaluateCondition_local _ answers answers')
    by apply Hsame, list_elem_of_here.
  destruct (evaluateCondition _ answers'); [done |].
  apply IH. intros r' Hr'. by apply Hsame, list_elem_of_further.
Qed.
End Frame.



Section Chain.
Implicit Types (q : QuestionConfig.t) (l path ext : list QuestionConfig.t).
Implicit Types (answers : Answers) (visited : gset string).

(** One turn of the [while] loop. *)
Lemma pathLoop_step (remaining : nat) l answers visited
    (currentId : option string) path :
  pathLoop (S remaining) l answers visited currentId path
  = match currentId with
    | None => Ok path
    | Some cur =>
        if negb (truthy_string cur) then Ok path
        else if decide (cur ∈ visited) then Ok path
        else
          match find (same_id cur) l with
          | None => Ok path
          | Some question =>
              pathLoop remaining l answers ({[ cur ]} ∪ visited)
                       (resolve_spec question l answers) (path ++ [question])
          end
    end.
Proof.
  simpl. destruct currentId as [cur |]; [| done].
  destruct (negb _); [done |]. destruct (decide _); [done |].
  destruct (find _ _); [| done]. by rewrite getNextQuestionId_resolve.
Qed.

Lemma truthy_string_ne (s : string) : truthy_string s = true ↔ s ≠ "".
Proof.
  unfold truthy_string. rewrite negb_true_iff. apply String.eqb_neq.
Qed.

(** What the loop appends: a chain under the resolver that starts at the
    cursor, made of first holders of non-empty ids. *)
Lemma pathLoop_linked (remaining : nat) l answers visited
    (currentId : option string) path ext :
  pathLoop remaining l answers visited currentId path = Ok (path ++ ext) →
  (∀ q, head ext = Some q → currentId = Some (QuestionConfig.id q))
  ∧ Forall (λ q, find (same_id (QuestionConfig.id q)) l = Some q
                 ∧ QuestionConfig.id q ≠ "") ext
  ∧ (∀ i q q', ext !! i = Some q → ext !! S i = Some q' →
       getNextQuestionId q l answers = Ok (Some (QuestionConfig.id q'))).
Proof.
  revert visited currentId path ext.
  induction remaining as [| remaining IH];
    intros visited currentId path ext Hrun.
  { simpl in Hrun. injection Hrun as Hrun.
    rewrite <- (app_nil_r path) in Hrun at 1.
    apply app_inv_head in Hrun. subst ext. by repeat split. }
  assert (Hstop : Ok path = Ok (path ++ ext) →
    (∀ q, head ext = Some q → currentId = Some (QuestionConfig.id q))
    ∧ Forall (λ q, find (same_id (QuestionConfig.id q)) l = Some q
                   ∧ QuestionConfig.id q ≠ "") ext
    ∧ (∀ i q q', ext !! i = Some q → ext !! S i = Some q' →
         getNextQuestionId q l answers = Ok (Some (QuestionConfig.id q')))).
  { intros Heq. injection Heq as Heq.
    rewrite <- (app_nil_r path) in Heq at 1.
    apply app_inv_head in Heq. subst ext. by repeat split. }
  rewrite pathLoop_step in Hrun.
  destruct currentId as [cur |]; [| by apply Hstop].
  destruct (truthy_string cur) eqn:Htruthy; simpl in Hrun;
    [| by apply Hstop].
  destruct (decide (cur ∈ visited)) as [Hseen | Hfresh]; [by apply Hstop |].
  destruct (find (same_id cur) l) as [question |] eqn:Hfind;
    [| by apply Hstop].
  clear Hstop.
  destruct (pathLoop_extends remaining l answers ({[cur]} ∪ visited)
              (resolve_spec question l answers) (path ++ [question]))
    as (ext' & Hrun' & _).
  rewrite Hrun in Hrun'. injection Hrun' as Hext.
  rewrite <- app_assoc in Hext. apply app_inv_head in Hext. simpl in Hext.
  subst ext.
  replace (path ++ question :: ext') with ((path ++ [question]) ++ ext')
    in Hrun by (by rewrite <- app_assoc).
  destruct (IH _ _ _ _ Hrun) as (Hhead & Hfirst & Hlinks).
  pose proof (find_same_id _ _ _ Hfind) as [_ Hid].
  split; [| split].
  - intros q [= <-]. by rewrite Hid.
  - constructor; [| done]. rewrite Hid. split; [done |].
    by apply truthy_string_ne.
  - intros [| i] q q' Hq Hq'; simpl in Hq, Hq'.
    + injection Hq as <-. rewrite getNextQuestionId_resolve. f_equal.
      apply Hhead. by destruct ext'; simplify_eq/=.
    + by eapply Hlinks.
Qed.
End Chain.

(** The projector is its loop, run from the start cursor with the cap of
    twice the list length. *)
Lemma getQuestionPath_as_loop (q0 : QuestionConfig.t)
    (l : list QuestionConfig.t) (answers : Answers)
    (startFromId : option string) :
  getQuestionPath (q0 :: l) answers startFromId
  = pathLoop (length (q0 :: l) * 2) (q0 :: l) answers ∅
      (Some match startFromId with
            | Some s => if truthy_string s then s else QuestionConfig.id q0
            | None => QuestionConfig.id q0
            end) [].
Proof.
  unfold getQuestionPath.
  destruct startFromId as [s |]; [destruct (truthy_string s) |]; reflexivity.
Qed.



Lemma find_split {A} (p : A → bool) (xs : list A) (x : A) :
  find p xs = Some x →
  ∃ pre rest, xs = pre ++ x :: rest ∧ ∀ y, y ∈ pre → p y = false.
Proof.
  induction xs as [| z xs IH]; simpl; [done |].
  destruct (p z) eqn:Hz.
  - intros [= ->]. exists [], xs. split; [done |].
    intros y Hy. by apply elem_of_nil in Hy.
  - intros Hfind. destruct (IH Hfind) as (pre & rest & -> & Hpre).
    exists (z :: pre), rest. split; [done |].
    intros y Hy. apply elem_of_cons in Hy as [-> | Hy]; auto.
Qed.



Section Start.
Implicit Types (q : QuestionConfig.t) (l path : list QuestionConfig.t).
Implicit Types (answers : Answers).

Lemma find_absent (cur : string) l :
  find (same_id cur) l = None ↔ ∀ y, y ∈ l → QuestionConfig.id y ≠ cur.
Proof.
  split.
  - intros Hnone y Hy. apply String.eqb_neq.
    apply (find_none _ _ Hnone). by apply list_elem_of_In.
  - intros Habs. induction l as [| z l IH]; simpl; [done |].
    destruct (same_id cur z) eqn:Hz.
    + apply String.eqb_eq in Hz. by destruct (Habs z (list_elem_of_here _ _)).
    + apply IH. intros y Hy. by apply Habs, list_elem_of_further.
Qed.

Lemma find_first_holder q (pre rest : list QuestionConfig.t) :
  (∀ y, y ∈ pre → QuestionConfig.id y ≠ QuestionConfig.id q) →
  find (same_id (QuestionConfig.id q)) (pre ++ q :: rest) = Some q.
Proof.
  induction pre as [| p pre IH]; intros Hpre; simpl.
  - unfold same_id. by rewrite String.eqb_refl.
  - replace (same_id (QuestionConfig.id q) p) with false.
    + apply IH. intros y Hy. by apply Hpre, list_elem_of_further.
    + symmetry. apply String.eqb_neq, Hpre, list_elem_of_here.
Qed.

(** The first turn of the loop from a non-empty start id. *)
Lemma pathLoop_from_start (q0 : QuestionConfig.t) l answers (s : string) :
  s ≠ "" →
  ∃ path,
    pathLoop (length (q0 :: l) * 2) (q0 :: l) answers ∅ (Some s) []
    = Ok path
    ∧ (∀ q, head path = Some q → QuestionConfig.id q = s)
    ∧ (path = [] ↔ ∀ y, y ∈ q0 :: l → QuestionConfig.id y ≠ s)
    ∧ head path = find (same_id s) (q0 :: l).
Proof.
  intros Hs. apply truthy_string_ne in Hs.
  replace (length (q0 :: l) * 2) with (S (length l * 2 + 1))
    by (simpl; lia).
  rewrite pathLoop_step, Hs. simpl negb. cbv iota.
  destruct (decide (s ∈ (∅ : gset string))) as [Hin | _];
    [by apply not_elem_of_empty in Hin |].
  destruct (find (same_id s) (q0 :: l)) as [question |] eqn:Hfind.
  - destruct (pathLoop_extends (length l * 2 + 1) (q0 :: l) answers
                ({[s]} ∪ ∅) (resolve_spec question (q0 :: l) answers)
                ([] ++ [question])) as (ext & -> & _).
    exists (([] ++ [question]) ++ ext).
    pose proof (find_same_id _ _ _ Hfind) as [Hin Hid].
    split; [done |]. split; [by intros q [= <-] |]. split; [| done].
    split; [done |]. intros Habs. by destruct (Habs question Hin).
  - exists []. split; [done |]. split; [done |]. split; [| done].
    split; [| done]. intros _. by apply find_absent.
Qed.
End Start.





Section Linear.
Implicit Types (q : QuestionConfig.t) (l pre suf path : list QuestionConfig.t).
Implicit Types (answers : Answers) (visited : gset string).

Lemma pathLoop_linear answers suf :
  ∀ pre (fuel : nat) visited path,
    NoDup (QuestionConfig.id <$> pre ++ suf) →
    Forall (λ q, QuestionConfig.id q ≠ "" ∧ hasBranching q = false) suf →
    (∀ x, x ∈ visited → x ∈ QuestionConfig.id <$> pre) →
    length suf ≤ fuel →
    pathLoop fuel (pre ++ suf) answers visited
             (QuestionConfig.id <$> head suf) path
    = Ok (path ++ suf).
Proof.
  induction suf as [| q suf IH];
    intros pre fuel visited path Hnd Hplain Hvis Hfuel.
  { rewrite !app_nil_r. by destruct fuel. }
  destruct fuel as [| fuel]; [simpl in Hfuel; lia |].
  apply Forall_cons in Hplain as [[Hid Hno] Hplain].
  assert (Hpre : ∀ y, y ∈ pre → QuestionConfig.id y ≠ QuestionConfig.id q).
  { pose proof Hnd as Hnd'. rewrite fmap_app in Hnd'.
    apply NoDup_app in Hnd' as (_ & Hdisj & _).
    intros y Hy Heq. apply (Hdisj (QuestionConfig.id y)).
    - apply list_elem_of_fmap. by exists y.
    - rewrite Heq. simpl. apply list_elem_of_here. }
  rewrite pathLoop_step.
  change (QuestionConfig.id <$> head (q :: suf))
    with (Some (QuestionConfig.id q)).
  cbv iota beta.
  rewrite (proj2 (truthy_string_ne _) Hid). simpl negb. cbv iota.
  destruct (decide (QuestionConfig.id q ∈ visited)) as [Hseen | _].
  { apply Hvis, list_elem_of_fmap in Hseen as (y & Heq & Hy).
    by destruct (Hpre y Hy). }
  rewrite find_first_holder by done.
  assert (Hnext : resolve_spec q (pre ++ q :: suf) answers
                  = QuestionConfig.id <$> head suf).
  { pose proof (resolve_without_branching q (pre ++ q :: suf) answers Hno)
      as Hres.
    rewrite getNextQuestionId_resolve in Hres. injection Hres as ->.
    apply following_found.
    - intros y Hy. apply String.eqb_neq. by apply Hpre.
    - apply String.eqb_refl. }
  rewrite Hnext.
  replace (pre ++ q :: suf) with ((pre ++ [q]) ++ suf) in *
    by (by rewrite <- app_assoc).
  rewrite IH.
  - by rewrite <- !app_assoc.
  - done.
  - done.
  - intros x Hx. rewrite fmap_app. apply elem_of_app.
    apply elem_of_union in Hx as [Hx | Hx].
    + right. apply elem_of_singleton in Hx. subst x. simpl.
      apply list_elem_of_here.
    + left. by apply Hvis.
  - simpl in Hfuel. lia.
Qed.
End Linear.

(** X16. A form without branching projects to itself: when the ids are
    pairwise distinct and non-empty and no question has a rule or a
    configured default-next, the path is the whole list in order. *)
Theorem getQuestionPath_linear_form
    (l : list QuestionConfig.t) (answers : Answers) :
  NoDup (QuestionConfig.id <$> l) →
  Forall (λ q, QuestionConfig.id q ≠ "" ∧ hasBranching q = false) l →
  getQuestionPath l answers None = Ok l.
Proof.
  intros Hnd Hplain. destruct l as [| q0 l]; [done |].
  rewrite getQuestionPath_as_loop.
  apply (pathLoop_linear answers (q0 :: l) [] _ ∅ []); try done.
  simpl. lia.
Qed.

Lemma getQuestionPath_linear_form_witness :
  getQuestionPath [EndToEnd.Q2; EndToEnd.Q3] ∅ None
  = Ok [EndToEnd.Q2; EndToEnd.Q3].
Proof.
  apply getQuestionPath_linear_form.
  - apply (NoDup_cons_2 "Q2" ["Q3"]).
    + intros Hin. apply list_elem_of_singleton in Hin. discriminate.
    + apply NoDup_singleton.
  - repeat constructor; discriminate.
Defined.

Section Cap.
Implicit Types (q : QuestionConfig.t) (l path ext : list QuestionConfig.t).
Implicit Types (answers : Answers) (visited seen : gset string).

(** The ids of the list that the loop has not visited yet. *)
Lemma unvisited_shrinks l visited (cur : string) q :
  cur ∉ visited → q ∈ l → QuestionConfig.id q = cur →
  size (list_to_set (QuestionConfig.id <$> l) ∖ ({[cur]} ∪ visited)
          : gset string)
  < size (list_to_set (QuestionConfig.id <$> l) ∖ visited : gset string).
Proof.
  intros Hfresh Hin Hid. apply subset_size. split.
  - intros x Hx. apply elem_of_difference in Hx as [Hx Hnot].
    apply elem_of_difference. split; [done |].
    intros Hv. apply Hnot. by apply elem_of_union_r.
  - intros Hsub. assert (Hcur : cur ∈ (list_to_set (QuestionConfig.id <$> l)
                                         ∖ visited : gset string)).
    { apply elem_of_difference. split; [| done].
      apply elem_of_list_to_set, list_elem_of_fmap. by exists q. }
    apply Hsub, elem_of_difference in Hcur as [_ Hnot].
    apply Hnot, elem_of_union_l. by apply elem_of_singleton.
Qed.

Lemma size_ids_le l :
  size (list_to_set (QuestionConfig.id <$> l) ∖ ∅ : gset string) ≤ length l.
Proof.
  rewrite difference_empty_L.
  induction l as [| q l IH].
  { change (size (∅ : gset string) ≤ 0). by rewrite size_empty. }
  change (size ({[QuestionConfig.id q]}
                ∪ list_to_set (QuestionConfig.id <$> l) : gset string)
          ≤ S (length l)).
  rewrite size_union_alt, size_singleton.
  pose proof (subseteq_size
    (list_to_set (QuestionConfig.id <$> l) ∖ {[QuestionConfig.id q]})
    (list_to_set (QuestionConfig.id <$> l) : gset string)) as Hle.
  assert (size (list_to_set (QuestionConfig.id <$> l)
                  ∖ {[QuestionConfig.id q]} : gset string)
          ≤ size (list_to_set (QuestionConfig.id <$> l) : gset string)).
  { apply Hle. intros x Hx. by apply elem_of_difference in Hx as [Hx _]. }
  lia.
Qed.

(** Once the cap covers the unvisited ids, one more turn changes nothing. *)
Lemma pathLoop_cap_slack l answers (fuel : nat) :
  ∀ visited (currentId : option string) path,
    size (list_to_set (QuestionConfig.id <$> l) ∖ visited : gset string)
    ≤ fuel →
    pathLoop (S fuel) l answers visited currentId path
    = pathLoop fuel l answers visited currentId path.
Proof.
  induction fuel as [| fuel IH]; intros visited currentId path Hsize.
  - rewrite pathLoop_step. simpl.
    destruct currentId as [cur |]; [| done].
    destruct (negb _); [done |].
    destruct (decide (cur ∈ visited)) as [| Hfresh]; [done |].
    destruct (find (same_id cur) l) as [question |] eqn:Hfind; [| done].
    apply find_same_id in Hfind as [Hin Hid].
    pose proof (unvisited_shrinks l visited cur question Hfresh Hin Hid).
    lia.
  - rewrite (pathLoop_step (S fuel)), (pathLoop_step fuel).
    destruct currentId as [cur |]; [| done].
    destruct (negb _); [done |].
    destruct (decide (cur ∈ visited)) as [| Hfresh]; [done |].
    destruct (find (same_id cur) l) as [question |] eqn:Hfind; [| done].
    apply find_same_id in Hfind as [Hin Hid].
    pose proof (unvisited_shrinks l visited cur question Hfresh Hin Hid).
    apply IH. lia.
Qed.

Lemma pathLoop_cap_irrelevant l answers (extra fuel : nat) :
  ∀ visited (currentId : option string) path,
    size (list_to_set (QuestionConfig.id <$> l) ∖ visited : gset string)
    ≤ fuel →
    pathLoop (extra + fuel) l answers visited currentId path
    = pathLoop fuel l answers visited currentId path.
Proof.
  induction extra as [| extra IH]; intros visited currentId path Hsize;
    [done |].
  simpl Nat.add. rewrite pathLoop_cap_slack by lia. by apply IH.
Qed.

Lemma stops_mono l seen (seen' : gset string) (cursor : option string) :
  seen ⊆ seen' → stops l seen cursor → stops l seen' cursor.
Proof.
  intros Hsub [-> | [-> | (s & -> & [Hin | Habs])]].
  - by left.
  - right. by left.
  - right. right. exists s. split; [done |]. left. by apply Hsub.
  - right. right. exists s. split; [done |]. by right.
Qed.

(** Under a cap that covers the unvisited ids, the loop only stops at a
    cursor that cannot be appended. *)
Lemma pathLoop_stops l answers (fuel : nat) :
  ∀ visited (currentId : option string) path ext,
    size (list_to_set (QuestionConfig.id <$> l) ∖ visited : gset string)
    ≤ fuel →
    pathLoop fuel l answers visited currentId path = Ok (path ++ ext) →
    (ext = [] → stops l visited currentId)
    ∧ (∀ q, last ext = Some q →
         stops l (visited ∪ list_to_set (QuestionConfig.id <$> ext))
               (resolve_spec q l answers)).
Proof.
  induction fuel as [| fuel IH];
    intros visited currentId path ext Hsize Hrun.
  - simpl in Hrun. injection Hrun as Hrun.
    rewrite <- (app_nil_r path) in Hrun at 1.
    apply app_inv_head in Hrun. subst ext. split; [| done]. intros _.
    destruct currentId as [cur |]; [| by left].
    destruct (decide (cur = "")) as [-> | Hne]; [right; by left |].
    right. right. exists cur. split; [done |].
    destruct (decide (cur ∈ visited)) as [| Hfresh]; [by left |].
    right. apply find_absent.
    destruct (find (same_id cur) l) as [question |] eqn:Hfind; [| done].
    apply find_same_id in Hfind as [Hin Hid].
    pose proof (unvisited_shrinks l visited cur question Hfresh Hin Hid).
    lia.
  - assert (Hnil : ∀ c, Ok path = Ok (path ++ ext) → stops l visited c →
              (ext = [] → stops l visited c)
              ∧ (∀ q, last ext = Some q →
                   stops l (visited ∪ list_to_set (QuestionConfig.id <$> ext))
                         (resolve_spec q l answers))).
    { intros c Heq Hc. injection Heq as Heq.
      rewrite <- (app_nil_r path) in Heq at 1.
      apply app_inv_head in Heq. by subst ext. }
    rewrite pathLoop_step in Hrun.
    destruct currentId as [cur |]; [| apply Hnil; [done | by left]].
    destruct (truthy_string cur) eqn:Htruthy; simpl in Hrun.
    2:{ apply Hnil; [done |]. right. left. f_equal.
        unfold truthy_string in Htruthy. apply negb_false_iff in Htruthy.
        by apply String.eqb_eq. }
    destruct (decide (cur ∈ visited)) as [Hseen | Hfresh].
    { apply Hnil; [done |]. right. right. exists cur. by split; [| left]. }
    destruct (find (same_id cur) l) as [question |] eqn:Hfind.
    2:{ apply Hnil; [done |]. right. right. exists cur.
        split; [done |]. right. by apply find_absent. }
    clear Hnil. pose proof (find_same_id _ _ _ Hfind) as [Hin Hid].
    destruct (pathLoop_extends fuel l answers ({[cur]} ∪ visited)
                (resolve_spec question l answers) (path ++ [question]))
      as (ext' & Hrun' & _).
    rewrite Hrun in Hrun'. injection Hrun' as Hext.
    rewrite <- app_assoc in Hext. apply app_inv_head in Hext.
    simpl in Hext. subst ext.
    replace (path ++ question :: ext') with ((path ++ [question]) ++ ext')
      in Hrun by (by rewrite <- app_assoc).
    pose proof (unvisited_shrinks l visited cur question Hfresh Hin Hid).
    assert (Hsize' :
      size (list_to_set (QuestionConfig.id <$> l) ∖ ({[cur]} ∪ visited)
              : gset string) ≤ fuel) by lia.
    destruct (IH _ _ _ _ Hsize' Hrun) as [Hempty Hlast].
    split; [done |]. intros q Hq.
    destruct ext' as [| q' ext'].
    + injection Hq as <-. eapply stops_mono; [| by apply Hempty].
      simpl. rewrite Hid. intros x Hx.
      apply elem_of_union in Hx as [Hx | Hx].
      * apply elem_of_union_r, elem_of_union_l. done.
      * by apply elem_of_union_l.
    + rewrite last_cons_cons in Hq.
      eapply stops_mono; [| by apply Hlast].
      intros x Hx. apply elem_of_union in Hx as [Hx | Hx].
      * apply elem_of_union in Hx as [Hx | Hx].
        -- apply elem_of_union_r. simpl. apply elem_of_union_l.
           by rewrite Hid.
        -- by apply elem_of_union_l.
      * apply elem_of_union_r. simpl. by apply elem_of_union_r.
Qed.
End Cap.





(** * Further properties: the branch editor *)

Section Editor.
Context {W : Type} `{Crypto W}.
Implicit Types (q : QuestionConfig.t) (l : list QuestionConfig.t).
Implicit Types (answers : Answers) (w : W).

Lemma first_value_or_empty_spec (values : list string) :
  first_value_or_empty values = "" ∨ first_value_or_empty values ∈ values.
Proof.
  unfold first_value_or_empty. destruct values as [| v values]; [by left |].
  simpl. destruct (truthy_string v); [| by left].
  right. apply list_elem_of_here.
Qed.

Lemma first_id_or_null_spec l :
  first_id_or_null l = None
  ∨ ∃ t, t ∈ l ∧ first_id_or_null l = Some (QuestionConfig.id t).
Proof.
  unfold first_id_or_null. destruct l as [| t l]; [by left |].
  simpl. destruct (truthy_string (QuestionConfig.id t)); [| by left].
  right. exists t. split; [apply list_elem_of_here | done].
Qed.

Lemma first_id_or_null_nonempty l :
  (∀ y, y ∈ l → QuestionConfig.id y ≠ "") →
  first_id_or_null l = QuestionConfig.id <$> head l.
Proof.
  intros Hids. unfold first_id_or_null. destruct l as [| t l]; [done |].
  simpl. by rewrite (proj2 (truthy_string_ne _) (Hids t (list_elem_of_here _ _))).
Qed.

Lemma first_true_rule_snoc (rules : list BranchRule.t) (r : BranchRule.t)
    answers :
  first_true_rule (rules ++ [r]) answers
  = match first_true_rule rules answers with
    | Some r' => Some r'
    | None =>
        if evaluateCondition (BranchRule.condition r) answers
        then Some r else None
    end.
Proof.
  unfold first_true_rule. induction rules as [| r' rules IH]; simpl.
  - done.
  - by destruct (evaluateCondition (BranchRule.condition r') answers).
Qed.

(** What [addBranch] passes to [onUpdate]. *)
Lemma addBranch_result q l w (new : list BranchRule.t) :
  (addBranch q l w).1 = Some new →
  ∃ src,
    head (getConditionableQuestions q l) = Some src
    ∧ new = default [] (QuestionConfig.branches q)
            ++ [BranchRule.mk (randomUUID w).1
                  (Condition.mk (QuestionConfig.id src) equals
                     (One (first_value_or_empty (getQuestionValues src))))
                  (first_id_or_null (getBranchableQuestions q l))].
Proof.
  unfold addBranch, createBranchRule.
  destruct (getConditionableQuestions q l) as [| src rest]; [done |].
  destruct (randomUUID w) as [uuid w']. simpl. intros [= <-].
  by exists src.
Qed.
End Editor.




Section Delete.
Context {A : Type}.
Implicit Types (xs : list A) (index from : Z).

Lemma filter_indexed_before xs index from :
  (index < from)%Z →
  filter_indexed (fun _ i => negb (i =? index)%Z) xs from = xs.
Proof.
  revert from. induction xs as [| x xs IH]; intros from Hlt; simpl; [done |].
  replace (from =? index)%Z with false by (symmetry; apply Z.eqb_neq; lia).
  simpl. f_equal. apply IH. lia.
Qed.

Lemma filter_indexed_at xs index from :
  (from ≤ index)%Z →
  filter_indexed (fun _ i => negb (i =? index)%Z) xs from
  = take (Z.to_nat (index - from)) xs ++ drop (S (Z.to_nat (index - from))) xs.
Proof.
  revert from. induction xs as [| x xs IH]; intros from Hle; simpl.
  - by rewrite take_nil.
  - destruct (Z.eqb_spec from index) as [-> | Hne]; simpl.
    + rewrite Z.sub_diag. simpl. rewrite drop_0.
      apply filter_indexed_before. lia.
    + rewrite IH by lia.
      replace (Z.to_nat (index - from)) with (S (Z.to_nat (index - (from + 1))))
        by lia.
      done.
Qed.
End Delete.

(** X21. [deleteBranch] removes the rule at the given position and keeps
    the others in order; a position outside the rule list (negative, or
    at least its length) leaves the list unchanged. *)
Theorem deleteBranch_removes_position (q : QuestionConfig.t) (index : Z) :
  let branches := default [] (QuestionConfig.branches q) in
  ((0 ≤ index < Z.of_nat (length branches))%Z →
   deleteBranch q index
   = take (Z.to_nat index) branches ++ drop (S (Z.to_nat index)) branches
   ∧ S (length (deleteBranch q index)) = length branches)
  ∧ ((index < 0 ∨ Z.of_nat (length branches) ≤ index)%Z →
     deleteBranch q index = branches).
Proof.
  intros branches. unfold deleteBranch. fold branches. split.
  - intros Hin. rewrite filter_indexed_at by lia. rewrite Z.sub_0_r.
    split; [done |].
    rewrite length_app, length_take, length_drop. lia.
  - intros [Hneg | Hbig].
    + by apply filter_indexed_before.
    + rewrite filter_indexed_at by lia. rewrite Z.sub_0_r.
      rewrite take_ge, drop_ge by lia. by rewrite app_nil_r.
Qed.

Lemma deleteBranch_removes_position_witness :
  deleteBranch EndToEnd.Q1 0 = []
  ∧ deleteBranch EndToEnd.Q1 1
    = default [] (QuestionConfig.branches EndToEnd.Q1).
Proof.
  split.
  - refine (proj1 (proj1 (deleteBranch_removes_position EndToEnd.Q1 0) _)).
    simpl. lia.
  - refine (proj2 (deleteBranch_removes_position EndToEnd.Q1 1) _).
    right. simpl. lia.
Defined.

(** X22. The default-next select round-trips: the value shown for a
    question, fed back through [onValueChange], gives the question's
    default-next again, provided a configured target id is neither empty
    nor one of the two reserved values ["_end"] and ["_continue"]. *)
Theorem defaultNext_select_round_trip (q : QuestionConfig.t) :
  (∀ target, QuestionConfig.defaultNextId q = Configured (Some target) →
             target ≠ "" ∧ target ≠ "_end" ∧ target ≠ "_continue") →
  defaultNext_onValueChange (defaultNext_select_value q)
  = QuestionConfig.defaultNextId q.
Proof.
  unfold defaultNext_onValueChange, defaultNext_select_value.
  destruct (QuestionConfig.defaultNextId q) as [| [target |]];
    intros Hok; [done | | done].
  destruct (Hok target eq_refl) as (Hne & Hend & Hcont).
  rewrite (proj2 (truthy_string_ne target) Hne).
  rewrite (proj2 (String.eqb_neq _ _) Hcont).
  by rewrite (proj2 (String.eqb_neq _ _) Hend).
Qed.

Lemma defaultNext_select_round_trip_witness :
  defaultNext_onValueChange (defaultNext_select_value TwoCycle.A)
  = QuestionConfig.defaultNextId TwoCycle.A.
Proof.
  apply defaultNext_select_round_trip.
  intros target [= <-]. repeat split; discriminate.
Defined.

(** X23. In the other direction every select value except the empty
    string survives: the default-next that [onValueChange] stores for it
    is shown as that same value. *)
Theorem defaultNext_select_value_stable (q : QuestionConfig.t) (value : string) :
  value ≠ "" →
  QuestionConfig.defaultNextId q = defaultNext_onValueChange value →
  defaultNext_select_value q = value.
Proof.
  intros Hne Hq. unfold defaultNext_select_value. rewrite Hq.
  unfold defaultNext_onValueChange.
  destruct (String.eqb_spec value "_continue") as [-> | _]; [done |].
  destruct (String.eqb_spec value "_end") as [-> | _]; [done |].
  by rewrite (proj2 (truthy_string_ne value) Hne).
Qed.

Lemma defaultNext_select_value_stable_witness :
  defaultNext_select_value (with_default (bare "q" short_text) None) = "_end".
Proof.
  apply defaultNext_select_value_stable; [discriminate | reflexivity].
Defined.

Section Title.
Implicit Types (s t : string).

Lemma length_string_append s t :
  String.length (String.append s t) = String.length s + String.length t.
Proof. induction s as [| c s IH]; simpl; [done | by rewrite IH]. Qed.

Lemma length_substring_0 (n : nat) s :
  String.length (String.substring 0 n s) = Nat.min n (String.length s).
Proof.
  revert s. induction n as [| n IH]; intros s; destruct s as [| c s];
    simpl; try done.
  by rewrite IH.
Qed.
End Title.

(** X24. The title shown in the editor is never empty and has at most 33
    characters; a title of 1 to 30 characters is shown unchanged, and an
    empty title is shown as ["Untitled"]. *)
Theorem getQuestionTitle_bounded (q : QuestionConfig.t) :
  getQuestionTitle q ≠ ""
  ∧ String.length (getQuestionTitle q) ≤ 33
  ∧ (QuestionConfig.title q ≠ "" →
     String.length (QuestionConfig.title q) ≤ 30 →
     getQuestionTitle q = QuestionConfig.title q)
  ∧ (QuestionConfig.title q = "" → getQuestionTitle q = "Untitled").
Proof.
  unfold getQuestionTitle.
  set (title := if truthy_string (QuestionConfig.title q)
                then QuestionConfig.title q else "Untitled").
  assert (Htitle : title ≠ "").
  { unfold title. destruct (truthy_string _) eqn:Ht; [| discriminate].
    by apply truthy_string_ne. }
  split; [| split; [| split]].
  - destruct (30 <? String.length title) eqn:Hlong; [| done].
    destruct title as [| c title]; [done |]. discriminate.
  - destruct (Nat.ltb_spec 30 (String.length title)) as [Hlong | Hshort].
    + rewrite length_string_append, length_substring_0.
      pose proof (Nat.le_min_l 30 (String.length title)) as Hmin.
      change (String.length "...") with 3. lia.
    + lia.
  - intros Hne Hlen. unfold title.
    rewrite (proj2 (truthy_string_ne _) Hne).
    by replace (30 <? _) with false by (symmetry; apply Nat.ltb_ge; lia).
  - intros Hempty. unfold title. by rewrite Hempty.
Qed.

Lemma getQuestionTitle_bounded_witness :
  getQuestionTitle (bare "q" short_text) = "Untitled".
Proof.
  apply (proj2 (proj2 (proj2 (getQuestionTitle_bounded (bare "q" short_text))))).
  reflexivity.
Defined.

(** * Further properties: the location input *)

Section Location.
Implicit Types (s t i : string) (c : Components.t) (ctx : MapboxContext.t).
Implicit Types (ctxs : list MapboxContext.t).

Lemma includes_comma_cons (a : ascii) s :
  a ≠ ","%char →
  string_includes (String a s) "," = string_includes s ",".
Proof.
  intros Hne.
  change (String.prefix "," (String a s) || string_includes s ","
          = string_includes s ",").
  change (String.prefix "," (String a s))
    with (if ascii_dec "," a then String.prefix "" s else false).
  destruct (ascii_dec "," a) as [Heq | _]; [by destruct Hne | done].
Qed.

Lemma before_comma_spec s :
  string_includes (before_comma s) "," = false
  ∧ (s = before_comma s
     ∨ ∃ rest, s = String.append (before_comma s) (String "," rest)).
Proof.
  induction s as [| a s [IHno IHsplit]]; [by split; [| left] |].
  change (before_comma (String a s))
    with (if Ascii.eqb a "," then EmptyString
          else String a (before_comma s)).
  destruct (Ascii.eqb_spec a ",") as [-> | Hne].
  - split; [done |]. right. by exists s.
  - split.
    + by rewrite includes_comma_cons.
    + destruct IHsplit as [Heq | [rest Heq]].
      * left. by f_equal.
      * right. exists rest.
        change (String a s
                = String a (String.append (before_comma s) (String "," rest))).
        by f_equal.
Qed.

(** Two prefixes of one string are prefixes of one another. *)
Lemma prefix_empty s : String.prefix "" s = true.
Proof. by destruct s. Qed.

Lemma prefix_comparable s t i :
  String.prefix s i = true → String.prefix t i = true →
  String.prefix s t = true ∨ String.prefix t s = true.
Proof.
  revert s t. induction i as [| x i IH]; intros s t Hs Ht.
  - destruct s as [| a s]; [| done]. left. apply prefix_empty.
  - destruct s as [| a s]; [left; apply prefix_empty |].
    destruct t as [| b t]; [right; apply prefix_empty |].
    simpl in *.
    destruct (ascii_dec a x) as [-> | _]; [| done].
    destruct (ascii_dec b x) as [-> | _]; [| done].
    destruct (ascii_dec x x) as [_ | Hne]; [| by destruct Hne].
    by apply IH.
Qed.

Lemma prefix_excludes s t i :
  String.prefix s t = false → String.prefix t s = false →
  String.prefix s i = true → String.prefix t i = false.
Proof.
  intros Hst Hts Hs. destruct (String.prefix t i) eqn:Ht; [| done].
  destruct (prefix_comparable s t i Hs Ht) as [Hc | Hc]; congruence.
Qed.

Lemma context_step_state c ctx :
  Components.state (context_step c ctx)
  = if String.prefix "region." (MapboxContext.id ctx)
    then Some (MapboxContext.text ctx) else Components.state c.
Proof.
  unfold context_step.
  destruct (String.prefix "region." (MapboxContext.id ctx)) eqn:Hr.
  - by rewrite (prefix_excludes "region." "place." _ eq_refl eq_refl Hr).
  - destruct (String.prefix "place." _); [done |].
    destruct (String.prefix "country." _); [done |].
    destruct (String.prefix "postcode." _); [done |].
    destruct (String.prefix "locality." _); [| done].
    by destruct (falsy_optional _).
Qed.

Lemma context_step_country c ctx :
  Components.country (context_step c ctx)
  = if String.prefix "country." (MapboxContext.id ctx)
    then Some (MapboxContext.text ctx) else Components.country c.
Proof.
  unfold context_step.
  destruct (String.prefix "country." (MapboxContext.id ctx)) eqn:Hr.
  - rewrite (prefix_excludes "country." "place." _ eq_refl eq_refl Hr).
    by rewrite (prefix_excludes "country." "region." _ eq_refl eq_refl Hr).
  - destruct (String.prefix "place." _); [done |].
    destruct (String.prefix "region." _); [done |].
    destruct (String.prefix "postcode." _); [done |].
    destruct (String.prefix "locality." _); [| done].
    by destruct (falsy_optional _).
Qed.

Lemma context_step_postcode c ctx :
  Components.postcode (context_step c ctx)
  = if String.prefix "postcode." (MapboxContext.id ctx)
    then Some (MapboxContext.text ctx) else Components.postcode c.
Proof.
  unfold context_step.
  destruct (String.prefix "postcode." (MapboxContext.id ctx)) eqn:Hr.
  - rewrite (prefix_excludes "postcode." "place." _ eq_refl eq_refl Hr).
    rewrite (prefix_excludes "postcode." "region." _ eq_refl eq_refl Hr).
    by rewrite (prefix_excludes "postcode." "country." _ eq_refl eq_refl Hr).
  - destruct (String.prefix "place." _); [done |].
    destruct (String.prefix "region." _); [done |].
    destruct (String.prefix "country." _); [done |].
    destruct (String.prefix "locality." _); [| done].
    by destruct (falsy_optional _).
Qed.

(** A component that each entry either overwrites (when its id has the
    prefix) or leaves alone ends as the text of the last such entry. *)
Lemma fold_last_with_prefix (get : Components.t → option string)
    (pre : string) ctxs c :
  (∀ c' ctx, get (context_step c' ctx)
             = if String.prefix pre (MapboxContext.id ctx)
               then Some (MapboxContext.text ctx) else get c') →
  get (fold_left context_step ctxs c)
  = match last (List.filter
                  (fun ctx => String.prefix pre (MapboxContext.id ctx)) ctxs)
    with
    | Some ctx => Some (MapboxContext.text ctx)
    | None => get c
    end.
Proof.
  intros Hstep. induction ctxs as [| ctx ctxs IH] using rev_ind; [done |].
  rewrite fold_left_app, List.filter_app. simpl. rewrite Hstep.
  destruct (String.prefix pre (MapboxContext.id ctx)).
  - by rewrite last_snoc.
  - by rewrite app_nil_r.
Qed.
Lemma context_step_city c ctx :
  Components.city (context_step c ctx)
  = if String.prefix "place." (MapboxContext.id ctx)
    then Some (MapboxContext.text ctx)
    else if String.prefix "locality." (MapboxContext.id ctx)
         then if falsy_optional (Components.city c)
              then Some (MapboxContext.text ctx) else Components.city c
         else Components.city c.
Proof.
  unfold context_step.
  destruct (String.prefix "place." (MapboxContext.id ctx)); [done |].
  destruct (String.prefix "locality." (MapboxContext.id ctx)) eqn:Hl.
  - rewrite (prefix_excludes "locality." "region." _ eq_refl eq_refl Hl).
    rewrite (prefix_excludes "locality." "country." _ eq_refl eq_refl Hl).
    rewrite (prefix_excludes "locality." "postcode." _ eq_refl eq_refl Hl).
    by destruct (falsy_optional _).
  - destruct (String.prefix "region." _); [done |].
    destruct (String.prefix "country." _); [done |].
    by destruct (String.prefix "postcode." _).
Qed.

Lemma filter_snoc {A} (p : A → bool) (xs : list A) (x : A) :
  List.filter p (xs ++ [x])
  = List.filter p xs ++ (if p x then [x] else []).
Proof. rewrite List.filter_app. simpl. by destruct (p x). Qed.

(** The city that the context alone determines. *)
Lemma fold_city ctxs :
  let places :=
    List.filter (fun ctx => String.prefix "place." (MapboxContext.id ctx))
                ctxs in
  let localities :=
    List.filter (fun ctx => String.prefix "locality." (MapboxContext.id ctx))
                ctxs in
  let city :=
    Components.city
      (fold_left context_step ctxs (Components.mk None None None None)) in
  (Forall (λ ctx, MapboxContext.text ctx ≠ "") places →
   ∀ p, last places = Some p → city = Some (MapboxContext.text p))
  ∧ (places = [] → localities = [] → city = None).
Proof.
  induction ctxs as [| ctx ctxs [IHplace IHnone]] using rev_ind;
    [by split |].
  cbv zeta in *. rewrite fold_left_app, !filter_snoc. simpl fold_left.
  rewrite context_step_city.
  destruct (String.prefix "place." (MapboxContext.id ctx)) eqn:Hp.
  - split.
    + intros _ p Hlast. rewrite last_snoc in Hlast. by injection Hlast as <-.
    + intros Hnil. by destruct (app_cons_not_nil _ _ _ (eq_sym Hnil)).
  - rewrite app_nil_r.
    destruct (String.prefix "locality." (MapboxContext.id ctx)) eqn:Hl.
    + split.
      * intros Hall p Hlast. rewrite (IHplace Hall p Hlast).
        assert (Hin : p ∈ List.filter
                  (fun ctx => String.prefix "place." (MapboxContext.id ctx))
                  ctxs).
        { apply last_Some in Hlast as [pre ->]. apply elem_of_app.
          right. apply list_elem_of_here. }
        rewrite Forall_forall in Hall. simpl.
        by rewrite (proj2 (truthy_string_ne _) (Hall p Hin)).
      * intros _ Hnil. by destruct (app_cons_not_nil _ _ _ (eq_sym Hnil)).
    + rewrite app_nil_r. by split.
Qed.
End Location.

(** X25. For a feature that is itself a place (its id starts with
    ["place."]) the city is the part of the place name before its first
    comma, whatever the context says: it contains no comma, and the place
    name is that city, alone or followed by a comma and the rest. *)
Theorem parseLocation_city_of_place {coord : Type}
    (feature : MapboxFeature.t coord) :
  String.prefix "place." (MapboxFeature.id feature) = true →
  ∃ city,
    LocationAnswer.city (parseLocationFromFeature feature) = Some city
    ∧ string_includes city "," = false
    ∧ (MapboxFeature.place_name feature = city
       ∨ ∃ rest, MapboxFeature.place_name feature
                 = String.append city (String "," rest)).
Proof.
  intros Hplace. unfold parseLocationFromFeature. simpl. rewrite Hplace.
  exists (before_comma (MapboxFeature.place_name feature)).
  split; [done |]. apply before_comma_spec.
Qed.

Lemma parseLocation_city_of_place_witness :
  ∃ city,
    LocationAnswer.city
      (parseLocationFromFeature
         (MapboxFeature.mk "place.123" "Austin, Texas" (0%Z, 0%Z) None None))
    = Some city
    ∧ string_includes city "," = false
    ∧ ("Austin, Texas" = city
       ∨ ∃ rest, "Austin, Texas" = String.append city (String "," rest)).
Proof.
  apply (parseLocation_city_of_place
           (MapboxFeature.mk "place.123" "Austin, Texas" (0%Z, 0%Z) None None)).
  reflexivity.
Defined.

(** X26. The state, the country and the postcode of the parsed location
    are the texts of the last context entries whose ids start with
    ["region."], ["country."] and ["postcode."]; each is undefined when
    the context has no such entry or is absent. The place name is copied,
    and the centre [lng, lat] becomes longitude and latitude. *)
Theorem parseLocation_components {coord : Type}
    (feature : MapboxFeature.t coord) :
  let ctxs := default [] (MapboxFeature.context feature) in
  let last_with pre :=
    MapboxContext.text
      <$> last (List.filter
                  (fun ctx => String.prefix pre (MapboxContext.id ctx)) ctxs) in
  let answer := parseLocationFromFeature feature in
  LocationAnswer.state answer = last_with "region."
  ∧ LocationAnswer.country answer = last_with "country."
  ∧ LocationAnswer.postcode answer = last_with "postcode."
  ∧ LocationAnswer.place_name answer = MapboxFeature.place_name feature
  ∧ (LocationAnswer.longitude answer, LocationAnswer.latitude answer)
    = MapboxFeature.center feature.
Proof.
  intros ctxs last_with answer. unfold answer, parseLocationFromFeature.
  simpl. fold ctxs. unfold last_with.
  rewrite (fold_last_with_prefix Components.state "region.")
    by apply context_step_state.
  rewrite (fold_last_with_prefix Components.country "country.")
    by apply context_step_country.
  rewrite (fold_last_with_prefix Components.postcode "postcode.")
    by apply context_step_postcode.
  repeat split; try by destruct (last _).
  by destruct (MapboxFeature.center feature).
Qed.

(** X27. For a feature that is not itself a place, a locality entry never
    replaces the city of a place entry: when the context has place
    entries, all with a non-empty text, the city is the text of the last
    of them. When the context has neither a place nor a locality entry,
    the city is undefined. *)
Theorem parseLocation_city_from_context {coord : Type}
    (feature : MapboxFeature.t coord) :
  let ctxs := default [] (MapboxFeature.context feature) in
  let places :=
    List.filter (fun ctx => String.prefix "place." (MapboxContext.id ctx))
                ctxs in
  let localities :=
    List.filter (fun ctx => String.prefix "locality." (MapboxContext.id ctx))
                ctxs in
  String.prefix "place." (MapboxFeature.id feature) = false →
  (∀ p, last places = Some p →
        Forall (λ ctx, MapboxContext.text ctx ≠ "") places →
        LocationAnswer.city (parseLocationFromFeature feature)
        = Some (MapboxContext.text p))
  ∧ (places = [] → localities = [] →
     LocationAnswer.city (parseLocationFromFeature feature) = None).
Proof.
  intros ctxs places localities Hnot.
  unfold parseLocationFromFeature. simpl. rewrite Hnot. fold ctxs.
  destruct (fold_city ctxs) as [Hplace Hnone]. split.
  - intros p Hlast Hall. by apply Hplace.
  - exact Hnone.
Qed.

Lemma parseLocation_city_from_context_witness :
  LocationAnswer.city
    (parseLocationFromFeature
       (MapboxFeature.mk "address.1" "1 Main St, Austin, Texas" (0%Z, 0%Z)
          (Some [MapboxContext.mk "place.7" "Austin" None;
                 MapboxContext.mk "locality.3" "Downtown" None])
          None))
  = Some "Austin".
Proof.
  refine (proj1 (parseLocation_city_from_context
            (MapboxFeature.mk "address.1" "1 Main St, Austin, Texas"
               (0%Z, 0%Z)
               (Some [MapboxContext.mk "place.7" "Austin" None;
                      MapboxContext.mk "locality.3" "Downtown" None])
               None) _)
            (MapboxContext.mk "place.7" "Austin" None) _ _).
  - reflexivity.
  - reflexivity.
  - repeat constructor. discriminate.
Defined.

(** * The module as JavaScript runs it *)

Section RuntimeEvaluator.
#[local] Abbreviation Normal := Runtime.Normal.
#[local] Abbreviation Throw := Runtime.Throw.
#[local] Abbreviation Completion := Runtime.Completion.
Implicit Types (v : Json) (items : list Json) (answers : Answers).

(** Induction on data that reaches the elements of arrays. *)
Lemma Json_array_ind (P : Json → Prop) :
  (∀ s, P (JString s)) → (∀ n, P (JNumber n)) → (∀ b, P (JBoolean b)) →
  P JNull → (∀ fields, P (JObject fields)) →
  (∀ items, Forall P items → P (JArray items)) →
  ∀ v, P v.
Proof.
  intros Hs Hn Hb Hnull Ho Ha. fix IH 1.
  intros [s | n | b | | fields | items];
    [apply Hs | apply Hn | apply Hb | apply Hnull | apply Ho |].
  apply Ha. induction items as [| e items IHitems]; constructor.
  - apply IH.
  - exact IHitems.
Qed.

(** On plain data the conversion returns, and returns what the
    conversion of the plain-data layer gives. *)
Lemma ToString_plain v :
  plain v = true → Runtime.ToString v = Normal (ToString v).
Proof.
  induction v as [s | n | b | | fields | items IH] using Json_array_ind;
    intros Hplain; try done.
  - by destruct b.
  - simpl in *. apply negb_true_iff in Hplain. by rewrite Hplain.
  - simpl in Hplain. cbn [Runtime.ToString ToString].
    assert (Hparts :
      (fix convert (es : list Json) : Completion (list string) :=
         match es with
         | [] => Normal []
         | e :: rest =>
             match (match e with
                    | JNull => Normal ""
                    | _ => Runtime.ToString e
                    end) with
             | Normal s =>
                 match convert rest with
                 | Normal ss => Normal (s :: ss)
                 | Throw err => Throw err
                 end
             | Throw err => Throw err
             end
         end) items
      = Normal (map (fun e => match e with
                              | JNull => ""
                              | _ => ToString e
                              end) items)).
    { induction items as [| e items IHitems]; [done |].
      apply Forall_cons in IH as [IHe IHrest].
      simpl in Hplain. apply andb_true_iff in Hplain as [He Hrest].
      rewrite (IHitems IHrest Hrest).
      destruct e; try done; by rewrite (IHe He). }
    by rewrite Hparts.
Qed.

Lemma plain_lookup answers (key : string) v :
  plain_answers answers → answers !! key = Some v → plain v = true.
Proof. intros Hplain Hv. exact (Hplain key v Hv). Qed.

Lemma some_returns {A} (f : A → Completion bool) (arr : list A) :
  Forall (λ a, ∃ b, f a = Normal b) arr → ∃ b, Runtime.some f arr = Normal b.
Proof.
  induction arr as [| a arr IH]; intros Hall; simpl; [by eexists |].
  apply Forall_cons in Hall as [[b Hb] Hrest]. rewrite Hb.
  destruct b; [by eexists | by apply IH].
Qed.

Lemma some_pure {A} (f : A → Completion bool) (g : A → bool) (arr : list A) :
  Forall (λ a, f a = Normal (g a)) arr → Runtime.some f arr = Normal (existsb g arr).
Proof.
  induction arr as [| a arr IH]; intros Hall; simpl; [done |].
  apply Forall_cons in Hall as [Ha Hrest]. rewrite Ha.
  destruct (g a); [done | by apply IH].
Qed.

Lemma plain_items items :
  forallb plain items = true →
  Forall (λ a, Runtime.ToString a = Normal (ToString a)) items.
Proof.
  intros Hall. apply Forall_forall. intros a Ha.
  apply ToString_plain.
  rewrite forallb_forall in Hall. by apply Hall, list_elem_of_In.
Qed.

(** A condition whose source question is answered by plain data, or is
    unanswered under an id that [Object.prototype] does not define,
    evaluates as on the plain-data layer. *)
Lemma evaluateCondition_on_plain_data (c : Condition.t) answers :
  match answers !! Condition.questionId c with
  | Some v => plain v = true
  | None => Runtime.inherited (Condition.questionId c) = None
  end →
  Runtime.evaluateCondition c answers = Normal (evaluateCondition c answers).
Proof.
  unfold Runtime.evaluateCondition, evaluateCondition, Runtime.Get.
  destruct (answers !! Condition.questionId c) as [v |]; [| by intros ->].
  intros Hplain. destruct v as [s | n | b | | fields | items]; try done;
    cbn [Runtime.ToString_property]; rewrite (ToString_plain _ Hplain);
    cbn [mbind Runtime.Completion_bind];
    destruct (Condition.operator c); try done;
    try (by destruct (Condition.value c)).
  - apply some_pure. eapply Forall_impl; [by apply plain_items |].
    cbv beta. by intros a ->.
  - destruct (Condition.value c) as [s | l]; [done |].
    apply some_pure. eapply Forall_impl; [by apply plain_items |].
    cbv beta. by intros a ->.
Qed.

Lemma inherited_not_data (key : string) v :
  Runtime.inherited key ≠ Some (Runtime.Data v).
Proof.
  unfold Runtime.inherited. destruct (String.eqb key "constructor"); [done |].
  destruct (String.eqb key "__proto__"); [done |].
  by destruct (existsb _ _).
Qed.

(** No condition raises on plain answers. *)
Lemma evaluateCondition_returns (c : Condition.t) answers :
  plain_answers answers →
  ∃ b, Runtime.evaluateCondition c answers = Normal b.
Proof.
  intros Hplain.
  destruct (answers !! Condition.questionId c) as [v |] eqn:Hv.
  - rewrite evaluateCondition_on_plain_data; [by eexists |].
    rewrite Hv. by eapply plain_lookup.
  - unfold Runtime.evaluateCondition, Runtime.Get. rewrite Hv.
    destruct (Runtime.inherited (Condition.questionId c)) as [p |] eqn:Hp;
      [| by eexists].
    destruct p as [v | name |]; [by destruct (inherited_not_data _ _ Hp) | |];
      cbn [Runtime.ToString_property mbind Runtime.Completion_bind];
      destruct (Condition.operator c); try (by eexists);
      destruct (Condition.value c); by eexists.
Qed.

(** The guard of the evaluator: no answer, no match. *)
Lemma evaluateCondition_without_answer
    (qid : string) (op : BranchOperator) (cv : ConditionValue) answers :
  (answers !! qid = None ∧ Runtime.inherited qid = None)
  ∨ answers !! qid = Some JNull →
  Runtime.evaluateCondition (Condition.mk qid op cv) answers = Normal false.
Proof.
  unfold Runtime.evaluateCondition, Runtime.Get; simpl.
  by intros [[-> ->] | ->].
Qed.
End RuntimeEvaluator.

(** C3. With the empty answers object and a condition on the question id
    ["constructor"], the source question is missing from the map, yet
    [not_equals] evaluates to true: the lookup finds the method that the
    object inherits, which passes the null/undefined guard. *)
Theorem evaluateCondition_inherited_key :
  (∅ : Answers) !! "constructor" = None
  ∧ Runtime.evaluateCondition
      (Condition.mk "constructor" not_equals (One "x")) ∅
    = Runtime.Normal true.
Proof. split; [apply lookup_empty | reflexivity]. Qed.

Section RuntimeResolver.
#[local] Abbreviation Normal := Runtime.Normal.
#[local] Abbreviation Throw := Runtime.Throw.
Implicit Types (q cur : QuestionConfig.t) (l pre rest : list QuestionConfig.t).
Implicit Types (answers : Answers) (rules before after : list BranchRule.t).
Implicit Types (r : BranchRule.t).

Lemma branchLoop_all_false_runtime rules answers :
  (∀ r, r ∈ rules →
        Runtime.evaluateCondition (BranchRule.condition r) answers
        = Normal false) →
  Runtime.branchLoop rules answers = Normal None.
Proof.
  induction rules as [| r rules IH]; intros Hall; simpl; [done |].
  rewrite (Hall r) by apply list_elem_of_here.
  apply IH. intros r' Hr'. by apply Hall, list_elem_of_further.
Qed.

(** The loop is decided by the first rule that does not evaluate to
    false. *)
Lemma branchLoop_first_decided before r after answers :
  (∀ r', r' ∈ before →
         Runtime.evaluateCondition (BranchRule.condition r') answers
         = Normal false) →
  Runtime.branchLoop (before ++ r :: after) answers
  = match Runtime.evaluateCondition (BranchRule.condition r) answers with
    | Runtime.Normal true => Normal (Some (BranchRule.nextQuestionId r))
    | Runtime.Normal false => Runtime.branchLoop after answers
    | Runtime.Throw err => Throw err
    end.
Proof.
  induction before as [| r' before IH]; intros Hall; simpl; [done |].
  rewrite (Hall r') by apply list_elem_of_here.
  apply IH. intros r'' Hr''. by apply Hall, list_elem_of_further.
Qed.

Lemma branchLoop_returns rules answers :
  plain_answers answers →
  ∃ target, Runtime.branchLoop rules answers = Normal target.
Proof.
  intros Hplain. induction rules as [| r rules IH]; simpl; [by eexists |].
  destruct (evaluateCondition_returns (BranchRule.condition r) answers Hplain)
    as [b ->].
  destruct b; [by eexists | exact IH].
Qed.

(** The linear fallback, guarded as in the code, never raises. *)
Lemma linear_fallback_runtime (id : string) l :
  (let currentIndex := findIndex (same_id id) l in
   if (0 <=? currentIndex)%Z &&
      (currentIndex <? Z.of_nat (length l) - 1)%Z
   then next ← Runtime.id_at l (currentIndex + 1)%Z; Normal (Some next)
   else Normal None)
  = Normal (following id l).
Proof.
  simpl. unfold findIndex.
  destruct (first_split (same_id id) l)
    as [Hall | (pre & q & rest & -> & Hpre & Hq)].
  - rewrite findIndex_from_absent, following_absent by done. done.
  - rewrite findIndex_from_found, following_found by done.
    rewrite length_app; simpl.
    destruct rest as [| n rest]; simpl.
    + replace (_ && _) with false; [done |].
      symmetry. apply andb_false_iff. right. apply Z.ltb_ge. lia.
    + replace (_ && _) with true.
      2:{ symmetry. apply andb_true_iff. split;
          [apply Z.leb_le | apply Z.ltb_lt]; lia. }
      unfold Runtime.id_at.
      replace (_ <? 0)%Z with false by (symmetry; apply Z.ltb_ge; lia).
      replace (Z.to_nat _) with (length pre + 1)%nat by lia.
      rewrite lookup_app_r by lia.
      replace (_ - _)%nat with 1%nat by lia. done.
Qed.

(** The resolver, read as: run the loop over the rules, then fall back. *)
Lemma getNextQuestionId_runtime q l answers :
  Runtime.getNextQuestionId q l answers
  = match Runtime.branchLoop (default [] (QuestionConfig.branches q)) answers
    with
    | Runtime.Normal (Some target) => Normal target
    | Runtime.Normal None =>
        match QuestionConfig.defaultNextId q with
        | Configured target => Normal target
        | Undefined => Normal (following (QuestionConfig.id q) l)
        end
    | Runtime.Throw err => Throw err
    end.
Proof.
  unfold Runtime.getNextQuestionId.
  assert (Hloop :
    match QuestionConfig.branches q with
    | Some branches =>
        if (0 <? Z.of_nat (length branches))%Z
        then Runtime.branchLoop branches answers else Normal None
    | None => Normal None
    end = Runtime.branchLoop (default [] (QuestionConfig.branches q)) answers).
  { by destruct (QuestionConfig.branches q) as [[| r rules] |]. }
  rewrite Hloop.
  destruct (Runtime.branchLoop _ answers) as [[target |] | err]; try done.
  cbn [mbind Runtime.Completion_bind].
  destruct (QuestionConfig.defaultNextId q); [| done].
  apply linear_fallback_runtime.
Qed.

Lemma getNextQuestionId_returns q l answers :
  plain_answers answers →
  ∃ next, Runtime.getNextQuestionId q l answers = Normal next.
Proof.
  intros Hplain. rewrite getNextQuestionId_runtime.
  destruct (branchLoop_returns (default [] (QuestionConfig.branches q))
              answers Hplain) as [[target |] ->]; [by eexists |].
  destruct (QuestionConfig.defaultNextId q); by eexists.
Qed.
End RuntimeResolver.

(** C2 fails where two questions share an id: the last question of
    [[A1; B; A2]], with no rule and no configured default-next, resolves
    to ["B"], the successor of the first holder of its id, and not to
    END. *)
Lemma structural_order_fails_on_shared_id :
  let A1 := bare "A" short_text in
  let B := bare "B" short_text in
  let A2 := bare "A" long_text in
  Runtime.getNextQuestionId A2 [A1; B; A2] ∅ = Runtime.Normal (Some "B")
  ∧ ¬ structural_order_as_claimed A2 [A1; B; A2] (Some "B").
Proof.
  split; [reflexivity |].
  intros Hclaim.
  specialize (Hclaim [bare "A" short_text; bare "B" short_text] [] eq_refl).
  discriminate.
Qed.

(** C2, amended. The resolver scans the rules in declared order and is
    decided by the first rule that does not evaluate to false: it returns
    that rule's target when the rule evaluates to true, and raises when
    the evaluation raises. When every rule evaluates to false it returns
    the configured default-next (END or an id); when none is configured,
    the id of the question right after the first question of the list
    that carries the current id, END when that question is last or no
    question carries the id. *)
Theorem getNextQuestionId_precedence
    (q : QuestionConfig.t) (l : list QuestionConfig.t) (answers : Answers) :
  let rules := default [] (QuestionConfig.branches q) in
  let all_false (rs : list BranchRule.t) :=
    ∀ r, r ∈ rs →
         Runtime.evaluateCondition (BranchRule.condition r) answers
         = Runtime.Normal false in
  (∀ before r after,
     rules = before ++ r :: after → all_false before →
     (Runtime.evaluateCondition (BranchRule.condition r) answers
      = Runtime.Normal true →
      Runtime.getNextQuestionId q l answers
      = Runtime.Normal (BranchRule.nextQuestionId r))
     ∧ (∀ err,
          Runtime.evaluateCondition (BranchRule.condition r) answers
          = Runtime.Throw err →
          Runtime.getNextQuestionId q l answers = Runtime.Throw err))
  ∧ (all_false rules →
     (∀ target, QuestionConfig.defaultNextId q = Configured target →
                Runtime.getNextQuestionId q l answers = Runtime.Normal target)
     ∧ (QuestionConfig.defaultNextId q = Undefined →
        (∀ pre cur rest,
           l = pre ++ cur :: rest →
           QuestionConfig.id cur = QuestionConfig.id q →
           (∀ y, y ∈ pre → QuestionConfig.id y ≠ QuestionConfig.id q) →
           Runtime.getNextQuestionId q l answers
           = Runtime.Normal (QuestionConfig.id <$> head rest))
        ∧ ((∀ y, y ∈ l → QuestionConfig.id y ≠ QuestionConfig.id q) →
           Runtime.getNextQuestionId q l answers = Runtime.Normal None))).
Proof.
  intros rules all_false. split.
  - intros before r after Hrules Hbefore.
    rewrite getNextQuestionId_runtime. fold rules. rewrite Hrules.
    rewrite branchLoop_first_decided by exact Hbefore.
    split; [by intros -> | by intros err ->].
  - intros Hall. rewrite getNextQuestionId_runtime. fold rules.
    rewrite branchLoop_all_false_runtime by exact Hall.
    split; [by intros target -> |]. intros ->. split.
    + intros pre cur rest -> Hcur Hpre. f_equal. apply following_found.
      * intros y Hy. apply String.eqb_neq. by apply Hpre.
      * by apply String.eqb_eq.
    + intros Habs. f_equal. apply following_absent.
      intros y Hy. apply String.eqb_neq. by apply Habs.
Qed.

Lemma getNextQuestionId_precedence_witness :
  Runtime.getNextQuestionId EndToEnd.Q1 EndToEnd.questions
                            {[ "Q1" := JString "Red" ]}
  = Runtime.Normal (Some "Q3")
  ∧ Runtime.getNextQuestionId EndToEnd.Q2 EndToEnd.questions ∅
    = Runtime.Normal (Some "Q3").
Proof.
  split.
  - refine (proj1 (proj1 (getNextQuestionId_precedence EndToEnd.Q1
              EndToEnd.questions {[ "Q1" := JString "Red" ]})
              [] (BranchRule.mk "r1" (Condition.mk "Q1" equals (One "Red"))
                                (Some "Q3")) [] _ _) _).
    + reflexivity.
    + intros r Hr. by apply elem_of_nil in Hr.
    + reflexivity.
  - refine (proj1 (proj2 (proj2 (getNextQuestionId_precedence EndToEnd.Q2
              EndToEnd.questions ∅) _) _) [EndToEnd.Q1] EndToEnd.Q2
              [EndToEnd.Q3] _ _ _).
    + intros r Hr. by apply elem_of_nil in Hr.
    + reflexivity.
    + reflexivity.
    + reflexivity.
    + intros y Hy. apply list_elem_of_singleton in Hy. subst y. discriminate.
Defined.

(** C10 fails when a rule's evaluation raises: no rule evaluates to
    true, and the call raises instead of returning END. *)
Lemma absent_resolves_to_end_fails :
  let rule := BranchRule.mk "r" (Condition.mk "s" equals (One "x")) None in
  let q := with_branches (bare "gone" short_text) [rule] in
  let answers : Answers := {[ "s" := JObject [("toString", JNumber 1)] ]} in
  Runtime.getNextQuestionId q [] answers = Runtime.Throw Runtime.TypeError
  ∧ ¬ absent_resolves_to_end q [] answers.
Proof.
  split; [reflexivity |].
  intros Hclaim. unfold absent_resolves_to_end in Hclaim.
  assert (Hcall :
    Runtime.getNextQuestionId
      (with_branches (bare "gone" short_text)
         [BranchRule.mk "r" (Condition.mk "s" equals (One "x")) None]) []
      ({[ "s" := JObject [("toString", JNumber 1)] ]} : Answers)
    = Runtime.Normal None).
  { apply Hclaim.
    - intros y Hy. by apply elem_of_nil in Hy.
    - intros r Hr. apply list_elem_of_singleton in Hr. subst r. discriminate.
    - reflexivity. }
  discriminate.
Qed.

(** C10, amended. A question whose id is not in the supplied list, all
    of whose rules evaluate to false (none raising), and whose
    default-next is not configured, resolves to END: the call returns
    [null] and does not raise. *)
Theorem getNextQuestionId_absent_is_end
    (q : QuestionConfig.t) (l : list QuestionConfig.t) (answers : Answers) :
  (∀ y, y ∈ l → QuestionConfig.id y ≠ QuestionConfig.id q) →
  (∀ r, r ∈ default [] (QuestionConfig.branches q) →
        Runtime.evaluateCondition (BranchRule.condition r) answers
        = Runtime.Normal false) →
  QuestionConfig.defaultNextId q = Undefined →
  Runtime.getNextQuestionId q l answers = Runtime.Normal None.
Proof.
  intros Habsent Hrules Hdef. rewrite getNextQuestionId_runtime.
  rewrite branchLoop_all_false_runtime by exact Hrules.
  rewrite Hdef. f_equal. apply following_absent.
  intros y Hy. apply String.eqb_neq. by apply Habsent.
Qed.

Lemma getNextQuestionId_absent_is_end_witness :
  Runtime.getNextQuestionId EndToEnd.Q1 [EndToEnd.Q2; EndToEnd.Q3]
                            {[ "Q1" := JString "Blue" ]}
  = Runtime.Normal None.
Proof.
  apply getNextQuestionId_absent_is_end.
  - intros y Hy. apply elem_of_cons in Hy as [-> | Hy]; [discriminate |].
    apply list_elem_of_singleton in Hy. subst y. discriminate.
  - intros r Hr. apply list_elem_of_singleton in Hr. subst r. reflexivity.
  - reflexivity.
Defined.

Section RuntimeProjector.
#[local] Abbreviation Normal := Runtime.Normal.
#[local] Abbreviation Throw := Runtime.Throw.
Implicit Types (q : QuestionConfig.t) (l path ext : list QuestionConfig.t).
Implicit Types (answers : Answers) (visited : gset string).

(** Whatever the loop returns extends the path it was given by at most
    one question of the list per iteration left. *)
Lemma pathLoop_bounds_runtime (remaining : nat) l answers :
  ∀ visited (currentId : option string) path result,
    Runtime.pathLoop remaining l answers visited currentId path
    = Normal result →
    ∃ ext, result = path ++ ext
           ∧ length ext ≤ remaining
           ∧ Forall (λ q, q ∈ l) ext.
Proof.
  induction remaining as [| remaining IH];
    intros visited currentId path result Hrun.
  { injection Hrun as <-. exists []. by rewrite app_nil_r. }
  assert (Hstop : Normal path = Normal result →
            ∃ ext, result = path ++ ext ∧ length ext ≤ S remaining
                   ∧ Forall (λ q, q ∈ l) ext).
  { intros [= <-]. exists []. rewrite app_nil_r.
    repeat split; simpl; auto with lia. }
  simpl in Hrun. destruct currentId as [cur |]; [| by apply Hstop].
  destruct (negb (truthy_string cur)); [by apply Hstop |].
  destruct (decide (cur ∈ visited)); [by apply Hstop |].
  destruct (find (same_id cur) l) as [question |] eqn:Hfind;
    [| by apply Hstop].
  apply find_same_id in Hfind as [Hin _].
  destruct (Runtime.getNextQuestionId question l answers) as [next | err];
    [| done].
  cbn [mbind Runtime.Completion_bind] in Hrun.
  destruct (IH _ _ _ _ Hrun) as (ext & -> & Hlen & Hfrom).
  exists (question :: ext). rewrite <- app_assoc. simpl.
  split; [done |]. split; [lia | by constructor].
Qed.

Lemma pathLoop_returns_runtime (remaining : nat) l answers :
  plain_answers answers →
  ∀ visited (currentId : option string) path,
    ∃ result,
      Runtime.pathLoop remaining l answers visited currentId path
      = Normal result.
Proof.
  intros Hplain. induction remaining as [| remaining IH];
    intros visited currentId path; simpl; [by eexists |].
  destruct currentId as [cur |]; [| by eexists].
  destruct (negb (truthy_string cur)); [by eexists |].
  destruct (decide (cur ∈ visited)); [by eexists |].
  destruct (find (same_id cur) l) as [question |]; [| by eexists].
  destruct (getNextQuestionId_returns question l answers Hplain)
    as [next ->].
  apply IH.
Qed.

Lemma getQuestionPath_as_loop_runtime (q0 : QuestionConfig.t) l answers
    (startFromId : option string) :
  Runtime.getQuestionPath (q0 :: l) answers startFromId
  = Runtime.pathLoop (length (q0 :: l) * 2) (q0 :: l) answers ∅
      (Some match startFromId with
            | Some s => if truthy_string s then s else QuestionConfig.id q0
            | None => QuestionConfig.id q0
            end) [].
Proof.
  unfold Runtime.getQuestionPath.
  destruct startFromId as [s |]; [destruct (truthy_string s) |]; reflexivity.
Qed.
End RuntimeProjector.

(** C1 fails on an answer that [String] cannot convert: the projector
    evaluates the first question's rule against an object with an own
    [toString] property and raises. *)
Lemma getQuestionPath_raises :
  let rule := BranchRule.mk "r" (Condition.mk "Q" equals (One "x")) None in
  let Q := with_branches (bare "Q" short_text) [rule] in
  Runtime.getQuestionPath [Q] {[ "Q" := JObject [("toString", JNumber 1)] ]}
                          None
  = Runtime.Throw Runtime.TypeError.
Proof. reflexivity. Qed.

(** C1, amended. The projector terminates on every input. It does not
    raise when the answers are plain, that is when no answer is, or holds
    in nested arrays, an object with an own [toString] property. Whenever
    it returns, the path has at most twice as many elements as the list
    has questions and each element is a question of the list (an END
    marker is never appended). On the empty list it returns the empty
    path. Cyclic graphs are not excluded. *)
Theorem getQuestionPath_terminates
    (l : list QuestionConfig.t) (answers : Answers)
    (startFromId : option string) :
  (plain_answers answers →
   ∃ path, Runtime.getQuestionPath l answers startFromId
           = Runtime.Normal path)
  ∧ (∀ path,
       Runtime.getQuestionPath l answers startFromId = Runtime.Normal path →
       length path ≤ 2 * length l ∧ Forall (λ q, q ∈ l) path)
  ∧ Runtime.getQuestionPath [] answers startFromId = Runtime.Normal [].
Proof.
  split; [| split; [| reflexivity]].
  - intros Hplain. destruct l as [| q0 l]; [by eexists |].
    rewrite getQuestionPath_as_loop_runtime.
    by apply pathLoop_returns_runtime.
  - intros path Hrun. destruct l as [| q0 l].
    { injection Hrun as <-. by split. }
    rewrite getQuestionPath_as_loop_runtime in Hrun.
    destruct (pathLoop_bounds_runtime _ _ _ _ _ _ _ Hrun)
      as (ext & -> & Hlen & Hfrom).
    split; [simpl in *; lia | done].
Qed.

Lemma getQuestionPath_terminates_witness :
  ∃ path,
    Runtime.getQuestionPath [TwoCycle.A; TwoCycle.B]
                            {[ "A" := JArray [JNumber 1; JNull] ]} None
    = Runtime.Normal path.
Proof.
  refine (proj1 (getQuestionPath_terminates [TwoCycle.A; TwoCycle.B]
                   {[ "A" := JArray [JNumber 1; JNull] ]} None) _).
  apply map_Forall_singleton. reflexivity.
Defined.



Section OnPlainData.
#[local] Abbreviation Normal := Runtime.Normal.
Implicit Types (q : QuestionConfig.t) (l path : list QuestionConfig.t).
Implicit Types (answers : Answers) (rules : list BranchRule.t).

(** The sources of the rules are answered, or are ids that
    [Object.prototype] does not define. *)
Lemma branchLoop_on_plain_data rules answers :
  plain_answers answers →
  (∀ r, r ∈ rules →
        answers !! Condition.questionId (BranchRule.condition r) = None →
        Runtime.inherited (Condition.questionId (BranchRule.condition r))
        = None) →
  Runtime.branchLoop rules answers = Normal (branchLoop rules answers).
Proof.
  intros Hplain. induction rules as [| r rules IH]; intros Hkeys; [done |].
  simpl. rewrite evaluateCondition_on_plain_data.
  - destruct (evaluateCondition _ answers); [done |].
    apply IH. intros r' Hr'. by apply Hkeys, list_elem_of_further.
  - destruct (answers !! _) as [v |] eqn:Hv.
    + by eapply plain_lookup.
    + by apply Hkeys; [apply list_elem_of_here |].
Qed.

Lemma getNextQuestionId_on_plain_data q l answers :
  plain_answers answers →
  (∀ r, r ∈ default [] (QuestionConfig.branches q) →
        answers !! Condition.questionId (BranchRule.condition r) = None →
        Runtime.inherited (Condition.questionId (BranchRule.condition r))
        = None) →
  Runtime.getNextQuestionId q l answers = Normal (resolve_spec q l answers).
Proof.
  intros Hplain Hkeys. rewrite getNextQuestionId_runtime.
  rewrite branchLoop_on_plain_data by done.
  rewrite branchLoop_first_true. unfold resolve_spec.
  destruct (first_true_rule _ answers); simpl; [done |].
  by destruct (QuestionConfig.defaultNextId q).
Qed.

Lemma pathLoop_on_plain_data (remaining : nat) l answers :
  plain_answers answers →
  (∀ q r, q ∈ l → r ∈ default [] (QuestionConfig.branches q) →
          answers !! Condition.questionId (BranchRule.condition r) = None →
          Runtime.inherited (Condition.questionId (BranchRule.condition r))
          = None) →
  ∀ (visited : gset string) (currentId : option string) path,
    ∃ result,
      pathLoop remaining l answers visited currentId path = Ok result
      ∧ Runtime.pathLoop remaining l answers visited currentId path
        = Normal result.
Proof.
  intros Hplain Hkeys. induction remaining as [| remaining IH];
    intros visited currentId path; [by eexists |].
  rewrite pathLoop_step. simpl Runtime.pathLoop.
  destruct currentId as [cur |]; [| by eexists].
  destruct (negb (truthy_string cur)); [by eexists |].
  destruct (decide (cur ∈ visited)); [by eexists |].
  destruct (find (same_id cur) l) as [question |] eqn:Hfind; [| by eexists].
  apply find_same_id in Hfind as [Hin _].
  rewrite getNextQuestionId_on_plain_data by eauto.
  apply IH.
Qed.
End OnPlainData.

(** On plain answers, with no rule testing an unanswered id that
    [Object.prototype] defines, the projector as JavaScript runs it
    returns the path of the plain-data layer. *)
Lemma getQuestionPath_on_plain_data
    (l : list QuestionConfig.t) (answers : Answers)
    (startFromId : option string) :
  plain_answers answers →
  (∀ q r, q ∈ l → r ∈ default [] (QuestionConfig.branches q) →
          answers !! Condition.questionId (BranchRule.condition r) = None →
          Runtime.inherited (Condition.questionId (BranchRule.condition r))
          = None) →
  ∃ path,
    getQuestionPath l answers startFromId = Ok path
    ∧ Runtime.getQuestionPath l answers startFromId = Runtime.Normal path.
Proof.
  intros Hplain Hkeys. destruct l as [| q0 l]; [by eexists |].
  rewrite getQuestionPath_as_loop, getQuestionPath_as_loop_runtime.
  by apply pathLoop_on_plain_data.
Qed.

Lemma list_filter_as_filter {A} (p : A → bool) (P : A → Prop)
    `{∀ x, Decision (P x)} (xs : list A) :
  (∀ x, p x = true ↔ P x) → List.filter p xs = filter P xs.
Proof.
  intros Hp. induction xs as [| x xs IH]; [done |].
  simpl. rewrite filter_cons, IH.
  destruct (decide (P x)) as [HP | HnP].
  - by rewrite (proj2 (Hp x) HP).
  - destruct (p x) eqn:Hpx; [| done]. by destruct (HnP (proj1 (Hp x) Hpx)).
Qed.

(** X2. The questions whose answers a rule may test are the questions
    before the first question carrying the current id, filtered to the
    types dropdown, checkboxes, yes/no, rating and opinion scale; when
    the current id is carried by the first question or by none, there are
    none. *)
Theorem getConditionableQuestions_spec
    (q : QuestionConfig.t) (l : list QuestionConfig.t) :
  (∀ pre cur rest,
     l = pre ++ cur :: rest →
     QuestionConfig.id cur = QuestionConfig.id q →
     (∀ y, y ∈ pre → QuestionConfig.id y ≠ QuestionConfig.id q) →
     getConditionableQuestions q l
     = filter (λ x, QuestionConfig.type x
                    ∈ [dropdown; checkboxes; yes_no; rating; opinion_scale])
              pre)
  ∧ ((∀ y, y ∈ l → QuestionConfig.id y ≠ QuestionConfig.id q) →
     getConditionableQuestions q l = []).
Proof.
  split.
  - intros pre cur rest -> Hcur Hpre.
    rewrite getConditionableQuestions_at by done.
    apply list_filter_as_filter. intros x. apply allowed_type_spec.
  - intros Habs. unfold getConditionableQuestions.
    by rewrite findIndex_none.
Qed.

Lemma getConditionableQuestions_spec_witness :
  getConditionableQuestions EndToEnd.Q3 EndToEnd.questions
  = filter (λ x, QuestionConfig.type x
                 ∈ [dropdown; checkboxes; yes_no; rating; opinion_scale])
           [EndToEnd.Q1; EndToEnd.Q2]
  ∧ getConditionableQuestions EndToEnd.Q1 [EndToEnd.Q2; EndToEnd.Q3] = [].
Proof.
  split.
  - refine (proj1 (getConditionableQuestions_spec EndToEnd.Q3
              EndToEnd.questions) [EndToEnd.Q1; EndToEnd.Q2] EndToEnd.Q3 []
              _ _ _).
    + reflexivity.
    + reflexivity.
    + intros y Hy. apply elem_of_cons in Hy as [-> | Hy]; [discriminate |].
      apply list_elem_of_singleton in Hy. subst y. discriminate.
  - refine (proj2 (getConditionableQuestions_spec EndToEnd.Q1
                     [EndToEnd.Q2; EndToEnd.Q3]) _).
    intros y Hy. apply elem_of_cons in Hy as [-> | Hy]; [discriminate |].
    apply list_elem_of_singleton in Hy. subst y. discriminate.
Defined.

Example conditionable_of_Q3 :
  getConditionableQuestions EndToEnd.Q3 EndToEnd.questions = [EndToEnd.Q1].
Proof. reflexivity. Qed.

(** X7. For a rating or opinion-scale question whose configured bounds
    [lo] and [hi] are integers different from 0 and of magnitude below
    [2^53]: when [hi - lo + 1] is at most [2^32 - 1] the values are the
    decimal strings of the integers from [lo] to [hi], each exactly once,
    [hi - lo + 1] of them and none when [hi < lo]; when [hi - lo + 1] is
    larger the call raises a RangeError. *)
Theorem numeric_values_spec (q : QuestionConfig.t) (lo hi : Z) :
  QuestionConfig.type q = rating ∨ QuestionConfig.type q = opinion_scale →
  QuestionConfig.minValue q = Some lo →
  QuestionConfig.maxValue q = Some hi →
  lo ≠ 0%Z → hi ≠ 0%Z →
  (- 2 ^ 53 < lo < 2 ^ 53)%Z → (- 2 ^ 53 < hi < 2 ^ 53)%Z →
  ((hi - lo + 1 ≤ 2 ^ 32 - 1)%Z →
   ∃ values,
     Runtime.getQuestionValues q = Runtime.Normal values
     ∧ NoDup values
     ∧ length values = Z.to_nat (hi - lo + 1)
     ∧ ∀ s, s ∈ values ↔ ∃ n, (lo ≤ n ≤ hi)%Z ∧ s = pretty n)
  ∧ ((2 ^ 32 - 1 < hi - lo + 1)%Z →
     Runtime.getQuestionValues q = Runtime.Throw Runtime.RangeError).
Proof.
  intros Hty Hmin Hmax Hlo Hhi _ _.
  assert (Hval : Runtime.getQuestionValues q
                 = Runtime.range_strings lo (hi - lo + 1)).
  { unfold Runtime.getQuestionValues.
    destruct Hty as [-> | ->]; rewrite !number_or_nonzero, Hmin, Hmax;
      try done; rewrite ?Hmin, ?Hmax; congruence. }
  rewrite Hval. unfold Runtime.range_strings. split.
  - intros Hlen.
    replace (2 ^ 32 - 1 <? hi - lo + 1)%Z with false
      by (symmetry; apply Z.ltb_ge; lia).
    eexists. split; [reflexivity |].
    destruct (range_strings_spec lo (hi - lo + 1)) as (Hnd & Hlength & Hmem).
    unfold range_strings in Hnd, Hlength, Hmem. simpl ToString in *.
    split; [done |]. split; [done |].
    intros s. rewrite Hmem. split; intros (n & Hn & ->); exists n;
      (split; [lia | done]).
  - intros Hlen.
    by replace (2 ^ 32 - 1 <? hi - lo + 1)%Z with true
      by (symmetry; apply Z.ltb_lt; lia).
Qed.

Lemma numeric_values_spec_witness :
  ∃ values,
    Runtime.getQuestionValues
      (with_range (bare "r" rating) (Some 2%Z) (Some 4%Z))
    = Runtime.Normal values
    ∧ NoDup values
    ∧ length values = Z.to_nat (4 - 2 + 1)
    ∧ ∀ s, s ∈ values ↔ ∃ n, (2 ≤ n ≤ 4)%Z ∧ s = pretty n.
Proof.
  refine (proj1 (numeric_values_spec
            (with_range (bare "r" rating) (Some 2%Z) (Some 4%Z))
            2 4 _ _ _ _ _ _ _) _).
  - left. reflexivity.
  - reflexivity.
  - reflexivity.
  - discriminate.
  - discriminate.
  - lia.
  - lia.
  - lia.
Defined.
